(** * TPCircularBuffer: a shallow embedding of [TPCircularBuffer.h]

    The header defines a byte ring buffer for one producer and one consumer.
    This development embeds its inline functions as executable Rocq
    definitions over a record that mirrors the C struct, and proves the
    sequential properties of the buffer:

    - 32-bit integers are [Z] with the two's-complement wrap-around written
      out ([wrap32]); the C remainder [%] is [Z.rem] (truncating);
    - a run that reaches an operation C leaves undefined (a remainder by
      zero, a [memcpy] outside its objects) ends in [Undefined]: the model
      then says nothing about what a build of the code does, which may be a
      crash as well as a normal return;
    - the functions that take a [TPCircularBuffer *] and mutate it run in a
      small state-and-failure monad [M]; the two accessors that take a
      [const TPCircularBuffer *] are pure functions of the record;
    - [assert] is modelled as enabled (no [NDEBUG]): a failing assertion
      ends the run in [AssertFailed], carrying the state at that point;
    - memory orders are not modelled: every statement here is about one
      thread running the calls one after the other. *)

From Stdlib Require Import ZArith Lia Bool List.
From Stdlib.Init Require Import Byte.
From stdpp Require Import base list.
Import ListNotations.

#[local] Open Scope Z_scope.

(** ** 32-bit signed arithmetic *)

Definition min_int : Z := -2147483648.
Definition max_int : Z := 2147483647.

Definition in_int32 (z : Z) : Prop := min_int <= z <= max_int.

(** Reduction of a mathematical integer to the [int32_t] that holds it. *)
Definition wrap32 (z : Z) : Z := (z + 2147483648) mod 4294967296 - 2147483648.

Definition add32 (x y : Z) : Z := wrap32 (x + y).
Definition sub32 (x y : Z) : Z := wrap32 (x - y).
Definition neg32 (x : Z) : Z := wrap32 (- x).

(** Conversion of an [int] to [size_t] (64 bits), as in the third argument
    of [memcpy]. *)
Definition to_size_t (z : Z) : Z := z mod 18446744073709551616.

(** ** The buffer *)

(** [typedef struct { void *buffer; int32_t length; int32_t tail;
    int32_t head; atomic_int fillCount; bool atomic; } TPCircularBuffer;]

    The field [buffer] holds the bytes of the region the C pointer refers
    to; the region is owned by the structure, so its contents travel with
    the record. *)
Record TPCircularBuffer : Type := mkTPCircularBuffer {
  buffer : list byte;
  length : Z;
  tail : Z;
  head : Z;
  fillCount : Z;
  atomic : bool
}.

Definition set_buffer (v : list byte) (b : TPCircularBuffer) : TPCircularBuffer :=
  {| buffer := v; length := length b; tail := tail b; head := head b;
     fillCount := fillCount b; atomic := atomic b |}.

Definition set_tail (v : Z) (b : TPCircularBuffer) : TPCircularBuffer :=
  {| buffer := buffer b; length := length b; tail := v; head := head b;
     fillCount := fillCount b; atomic := atomic b |}.

Definition set_head (v : Z) (b : TPCircularBuffer) : TPCircularBuffer :=
  {| buffer := buffer b; length := length b; tail := tail b; head := v;
     fillCount := fillCount b; atomic := atomic b |}.

Definition set_fillCount (v : Z) (b : TPCircularBuffer) : TPCircularBuffer :=
  {| buffer := buffer b; length := length b; tail := tail b; head := head b;
     fillCount := v; atomic := atomic b |}.

Definition set_atomic (v : bool) (b : TPCircularBuffer) : TPCircularBuffer :=
  {| buffer := buffer b; length := length b; tail := tail b; head := head b;
     fillCount := fillCount b; atomic := v |}.

(** A pointer into the region: [Addr k] is [(char * )buffer->buffer + k]. *)
Inductive pointer : Type :=
| NULL
| Addr (off : Z).

(** Pointer arithmetic. An offset of [NULL] never lands in the region. *)
Definition ptr_add (p : pointer) (d : Z) : pointer :=
  match p with
  | NULL => NULL
  | Addr k => Addr (k + d)
  end.

(** ** The monad of the mutating functions *)

(** How a call ends: it returns, it stops at a failed [assert], or it
    reaches undefined behaviour. *)
Inductive outcome (A : Type) : Type :=
| Returned (r : A) (b : TPCircularBuffer)
| AssertFailed (b : TPCircularBuffer)
| Undefined.

Arguments Returned {A} r b.
Arguments AssertFailed {A} b.
Arguments Undefined {A}.

Definition M (A : Type) : Type := TPCircularBuffer -> outcome A.

Definition ret {A : Type} (x : A) : M A := fun b => Returned x b.

Definition bind {A B : Type} (c : M A) (k : A -> M B) : M B :=
  fun b =>
    match c b with
    | Returned x b' => k x b'
    | AssertFailed b' => AssertFailed b'
    | Undefined => Undefined
    end.

Definition get : M TPCircularBuffer := fun b => Returned b b.
Definition gets {A : Type} (f : TPCircularBuffer -> A) : M A := fun b => Returned (f b) b.
Definition modify (f : TPCircularBuffer -> TPCircularBuffer) : M unit :=
  fun b => Returned tt (f b).
Definition undefined {A : Type} : M A := fun _ => Undefined.

(** [assert(c)] from [<assert.h>]. *)
Definition assert (c : bool) : M unit :=
  fun b => if c then Returned tt b else AssertFailed b.

Declare Scope buf_scope.
Delimit Scope buf_scope with buf.
Notation "'let*' x ':=' c 'in' k" := (bind c (fun x => k))
  (at level 10, x pattern, c at level 100, k at level 200) : buf_scope.
#[local] Open Scope buf_scope.

(** The C remainder on [int32_t]: truncating, and undefined when the
    divisor is zero or the quotient does not fit (where x86 traps). *)
Definition rem_traps (x y : Z) : bool := (y =? 0) || ((x =? min_int) && (y =? -1)).

Definition rem32 (x y : Z) : M Z :=
  if rem_traps x y then undefined else ret (Z.rem x y).

(** ** Operations on the [atomic_int] field

    The value read, and for the read-modify-write operations the pair of the
    value read and the value stored. Arithmetic on atomic integers wraps. *)

Definition atomic_load_explicit (obj : Z) : Z := obj.
Definition atomic_fetch_add_explicit (obj arg : Z) : Z * Z := (obj, add32 obj arg).
Definition atomic_fetch_sub_explicit (obj arg : Z) : Z * Z := (obj, sub32 obj arg).

(** ** The mirrored region *)

(** Modelled from the spec: the Memory Region Provider is not part of the
    header. The region has [cap] bytes of storage and is mapped twice in a
    row, so the byte at offset [cap + k] is the byte at offset [k] for
    [0 <= k < cap]; offsets outside [0, 2 * cap) are not mapped. *)
Definition phys (cap off : Z) : nat := Z.to_nat (off mod cap).

Fixpoint store_bytes (cap off : Z) (bs : list byte) (mem : list byte) : list byte :=
  match bs with
  | [] => mem
  | x :: bs' => store_bytes cap (off + 1) bs' (<[phys cap off := x]> mem)
  end.

Fixpoint load_bytes (cap off : Z) (n : nat) (mem : list byte) : option (list byte) :=
  match n with
  | O => Some []
  | S n' =>
      match mem !! phys cap off, load_bytes cap (off + 1) n' mem with
      | Some x, Some xs => Some (x :: xs)
      | _, _ => None
      end
  end.

Definition mapped (cap off n : Z) : bool := (0 <=? off) && (off + n <=? 2 * cap).

(** The contract of [memcpy(dst, src + soff, n)] for [n > 0], with [dst] a
    pointer into the region and [src] an object outside it: both ranges lie
    inside their objects. *)
Definition in_bounds (b : TPCircularBuffer) (dst : pointer) (src : list byte)
    (soff n : Z) : bool :=
  match dst with
  | NULL => false
  | Addr d =>
      mapped (length b) d n && (0 <=? soff) && (soff + n <=? Z.of_nat (List.length src))
  end.

(** [memcpy(dst, src + soff, n)]. Copying no byte touches nothing; a copy
    within the contract stores the bytes; outside the contract the behaviour
    is undefined. *)
Definition memcpy (dst : pointer) (src : list byte) (soff n : Z) : M unit :=
  if n =? 0 then ret tt
  else
    let* b := get in
    match dst with
    | Addr d =>
        if in_bounds b dst src soff n
        then modify (set_buffer (store_bytes (length b) d
                                   (take (Z.to_nat n) (drop (Z.to_nat soff) src))
                                   (buffer b)))
        else undefined
    | NULL => undefined
    end.

(** What a reader finds in the [n] bytes at [p]. *)
Definition read_bytes (b : TPCircularBuffer) (p : pointer) (n : Z) : option (list byte) :=
  if n =? 0 then Some []
  else
    match p with
    | NULL => None
    | Addr d =>
        if mapped (length b) d n then load_bytes (length b) d (Z.to_nat n) (buffer b)
        else None
    end.

(** ** Reading (consuming) *)

(** [TPCircularBufferTail]: the pointer returned and [*availableBytes]. *)
Definition TPCircularBufferTail (b : TPCircularBuffer) : pointer * Z :=
  let fillCount := if atomic b then atomic_load_explicit (fillCount b) else fillCount b in
  let availableBytes := if fillCount <=? 0 then 0 else fillCount in
  if availableBytes =? 0 then (NULL, availableBytes)
  else (Addr (tail b), availableBytes).

(** [TPCircularBufferConsume]. *)
Definition TPCircularBufferConsume (amount : Z) : M unit :=
  let* b := get in
  let* t := rem32 (add32 (tail b) amount) (length b) in
  let* _ := modify (set_tail t) in
  if atomic b then
    let* b := get in
    modify (set_fillCount (snd (atomic_fetch_sub_explicit (fillCount b) amount)))
  else
    let* b := get in
    modify (set_fillCount (sub32 (fillCount b) amount)).

(** ** Writing (producing) *)

(** [TPCircularBufferHead]: the pointer returned, [*availableBytes] and
    [*discardBytes]. *)
Definition TPCircularBufferHead (b : TPCircularBuffer) : pointer * Z * Z :=
  let fillCount := if atomic b then atomic_load_explicit (fillCount b) else fillCount b in
  let '(availableBytes, discardBytes) :=
    if fillCount <=? 0 then (length b, neg32 fillCount)
    else (sub32 (length b) fillCount, 0) in
  if availableBytes =? 0 then (NULL, availableBytes, discardBytes)
  else (Addr (head b), availableBytes, discardBytes).

(** [TPCircularBufferProduce]. *)
Definition TPCircularBufferProduce (amount : Z) : M Z :=
  let* b := get in
  let* h := rem32 (add32 (head b) amount) (length b) in
  let* _ := modify (set_head h) in
  let* previousFillCount :=
    (if atomic b then
       let* b := get in
       let '(old, new) := atomic_fetch_add_explicit (fillCount b) amount in
       let* _ := modify (set_fillCount new) in
       ret old
     else
       let* b := get in
       let previousFillCount := fillCount b in
       let* _ := modify (set_fillCount (add32 (fillCount b) amount)) in
       ret previousFillCount) in
  let* b := get in
  let* _ := assert (add32 previousFillCount amount <=? length b) in
  ret previousFillCount.

(** [TPCircularBufferProduceBytes]. The source is the object [src] points
    to; [len] is passed separately, as in C. *)
Definition TPCircularBufferProduceBytes (src : list byte) (len : Z) : M bool :=
  let* (ptr, space, discard) := gets TPCircularBufferHead in
  if space <? sub32 len discard then ret false
  else
    let* _ := memcpy (ptr_add ptr discard) src discard (to_size_t (sub32 len discard)) in
    let* _ := TPCircularBufferProduce len in
    ret true.

(** ** Deprecated *)

(** [TPCircularBufferConsumeNoBarrier]. *)
Definition TPCircularBufferConsumeNoBarrier (amount : Z) : M unit :=
  let* b := get in
  let* t := rem32 (add32 (tail b) amount) (length b) in
  let* _ := modify (set_tail t) in
  let* b := get in
  modify (set_fillCount (sub32 (fillCount b) amount)).

(** [TPCircularBufferProduceNoBarrier]. *)
Definition TPCircularBufferProduceNoBarrier (amount : Z) : M unit :=
  let* b := get in
  let* h := rem32 (add32 (head b) amount) (length b) in
  let* _ := modify (set_head h) in
  let* b := get in
  let* _ := modify (set_fillCount (add32 (fillCount b) amount)) in
  let* b := get in
  assert (fillCount b <=? length b).

(** ** Lifecycle *)

(** Modelled from the spec: [TPCircularBufferClear] is declared in the
    header and defined elsewhere. It resets the read cursor, the write
    cursor and the fill count to zero and keeps the region. *)
Definition TPCircularBufferClear : M unit :=
  modify (fun b => set_fillCount 0 (set_head 0 (set_tail 0 b))).

(** ** The access functions as calls *)

(** [TPCircularBufferTail] and [TPCircularBufferHead] once more, statement
    by statement in the monad of the other calls: each field the C code
    reads is read from the state the call runs in, and the values stored
    through the out-parameters are returned with the pointer. *)
Module Call.

Definition TPCircularBufferTail : M (pointer * Z) :=
  let* is_atomic := gets atomic in
  let* fillCount :=
    (if is_atomic : bool
     then let* v := gets fillCount in ret (atomic_load_explicit v)
     else gets fillCount) in
  let availableBytes := if fillCount <=? 0 then 0 else fillCount in
  if availableBytes =? 0 then ret (NULL, availableBytes)
  else
    let* t := gets tail in
    ret (Addr t, availableBytes).

Definition TPCircularBufferHead : M (pointer * Z * Z) :=
  let* is_atomic := gets atomic in
  let* fillCount :=
    (if is_atomic : bool
     then let* v := gets fillCount in ret (atomic_load_explicit v)
     else gets fillCount) in
  let* (availableBytes, discardBytes) :=
    (if fillCount <=? 0
     then let* len := gets length in ret (len, neg32 fillCount)
     else let* len := gets length in ret (sub32 len fillCount, 0)) in
  if availableBytes =? 0 then ret (NULL, availableBytes, discardBytes)
  else
    let* h := gets head in
    ret (Addr h, availableBytes, discardBytes).

End Call.

(** ** Sequences of calls *)

Inductive op : Type :=
| Consume (amount : Z)
| Produce (amount : Z).

Definition run_op (o : op) : M unit :=
  match o with
  | Consume amount => TPCircularBufferConsume amount
  | Produce amount => let* _ := TPCircularBufferProduce amount in ret tt
  end.

Definition run_op_legacy (o : op) : M unit :=
  match o with
  | Consume amount => TPCircularBufferConsumeNoBarrier amount
  | Produce amount => TPCircularBufferProduceNoBarrier amount
  end.

Fixpoint run (step : op -> M unit) (ops : list op) : M unit :=
  match ops with
  | [] => ret tt
  | o :: ops' => let* _ := step o in run step ops'
  end.

(** The same call made [n] times in a row, collecting what it reports. *)
Fixpoint call_times {A : Type} (c : M A) (n : nat) : M (list A) :=
  match n with
  | O => ret []
  | S n' => let* x := c in let* xs := call_times c n' in ret (x :: xs)
  end.

(** What a run leaves to be seen of the counter and the cursors. *)
Inductive observed : Type :=
| Completed (fill rd wr : Z)
| Aborted (fill rd wr : Z)
| Unspecified.

Definition observe {A : Type} (o : outcome A) : observed :=
  match o with
  | Returned _ b => Completed (fillCount b) (tail b) (head b)
  | AssertFailed b => Aborted (fillCount b) (tail b) (head b)
  | Undefined => Unspecified
  end.

(** ** Predicates on buffer states *)

(** What the C types and the data model give: every [int32_t] field in
    range, a positive capacity, and a region of that many bytes. *)
Record wf (b : TPCircularBuffer) : Prop := mk_wf {
  wf_length : 0 < length b <= max_int;
  wf_tail : in_int32 (tail b);
  wf_head : in_int32 (head b);
  wf_fillCount : in_int32 (fillCount b);
  wf_buffer : Z.of_nat (List.length (buffer b)) = length b
}.

(** The invariant of the states with no call in flight. *)
Definition quiescent (b : TPCircularBuffer) : Prop :=
  0 <= fillCount b <= length b /\
  head b = (tail b + fillCount b) mod length b.

(** Modelled from the spec: initialisation and [TPCircularBufferClear] are
    defined outside the header; both leave the two cursors and the fill
    count at zero. *)
Definition cleared (b : TPCircularBuffer) : Prop :=
  tail b = 0 /\ head b = 0 /\ fillCount b = 0.

(** The stated precondition of a call: the amount is at most what the
    matching access function reports for the state the call runs in. *)
Definition respects (b : TPCircularBuffer) (o : op) : Prop :=
  match o with
  | Consume amount => amount <= snd (TPCircularBufferTail b)
  | Produce amount => amount <= snd (fst (TPCircularBufferHead b))
  end.

Definition amount_of (o : op) : Z :=
  match o with
  | Consume amount => amount
  | Produce amount => amount
  end.

(** States reached from [b0] by calls that respect their precondition. *)
Inductive reachable (b0 : TPCircularBuffer) : TPCircularBuffer -> Prop :=
| reachable_start : reachable b0 b0
| reachable_step b o b' :
    reachable b0 b -> respects b o -> run_op o b = Returned tt b' -> reachable b0 b'.

(** The same, with every amount a count of bytes (not negative). *)
Inductive reachable_nonneg (b0 : TPCircularBuffer) : TPCircularBuffer -> Prop :=
| reachable_nonneg_start : reachable_nonneg b0 b0
| reachable_nonneg_step b o b' :
    reachable_nonneg b0 b -> 0 <= amount_of o -> respects b o ->
    run_op o b = Returned tt b' -> reachable_nonneg b0 b'.

(** ** States the calls drive the buffer through *)

(** The state [TPCircularBufferProduce] has written when it reaches its
    assertion. *)
Definition produced (amount : Z) (b : TPCircularBuffer) : TPCircularBuffer :=
  {| buffer := buffer b; length := length b; tail := tail b;
     head := Z.rem (add32 (head b) amount) (length b);
     fillCount := add32 (fillCount b) amount;
     atomic := atomic b |}.

(** The bytes [TPCircularBufferProduceBytes] copies, and the region after
    the copy. *)
Definition copied_bytes (src : list byte) (len discard : Z) : list byte :=
  take (Z.to_nat (len - discard)) (drop (Z.to_nat discard) src).

Definition after_copy (b : TPCircularBuffer) (src : list byte) (len discard : Z)
  : TPCircularBuffer :=
  set_buffer (store_bytes (length b) (head b + discard)
                (copied_bytes src len discard) (buffer b)) b.

(** The invariant carried along a run: the state is well formed, the sum of
    a cursor and an amount fits 32 bits, the read cursor is an offset into
    the buffer, and the quiescent invariant holds. *)
Definition steady (b : TPCircularBuffer) : Prop :=
  wf b /\ length b <= 1073741824 /\ 0 <= tail b < length b /\ quiescent b.

(** An outcome with the mode flag and the returned value erased. *)
Definition forget_mode {A : Type} (o : outcome A) : outcome unit :=
  match o with
  | Returned _ b => Returned tt (set_atomic true b)
  | AssertFailed b => AssertFailed (set_atomic true b)
  | Undefined => Undefined
  end.

(** ** Example states *)

(** A cleared buffer of one page. *)
Definition empty4096 : TPCircularBuffer :=
  mkTPCircularBuffer (replicate 4096 x00) 4096 0 0 0 true.

(** The fill count as low as it goes. *)
Definition drained4096 : TPCircularBuffer :=
  mkTPCircularBuffer (replicate 4096 x00) 4096 0 0 min_int true.

(** After producing -1 on the cleared buffer. *)
Definition wrapped_produce : TPCircularBuffer :=
  mkTPCircularBuffer (replicate 4096 x00) 4096 0 (-1) (-1) true.

(** A fill count left negative by a race with a clear. *)
Definition raced4096 : TPCircularBuffer :=
  mkTPCircularBuffer (replicate 4096 x00) 4096 0 0 (-2) true.

(** The same negative fill count with the write cursor on the last byte. *)
Definition raced_at_end4096 : TPCircularBuffer :=
  mkTPCircularBuffer (replicate 4096 x00) 4096 0 4095 (-2) true.

(** One byte [x61] written and not yet read. *)
Definition one_unread4096 : TPCircularBuffer :=
  mkTPCircularBuffer (replicate 4096 x61) 4096 0 1 1 true.

(** Ten bytes short of full. *)
Definition nearly_full4096 : TPCircularBuffer :=
  mkTPCircularBuffer (replicate 4096 x00) 4096 0 4086 4086 true.

(** ** Tactics *)

Ltac same_fields H :=
  match type of H with
  | set_atomic _ ?b1 = set_atomic _ ?b2 =>
      destruct b1, b2; unfold set_atomic in H; simpl in H;
      injection H as -> -> -> -> ->
  end.

Ltac solve_wf :=
  constructor; vm_compute; repeat split; first [ reflexivity | discriminate ].

Ltac by_eval :=
  vm_compute; repeat split; first [ reflexivity | discriminate ].

Ltac int32_bounds := unfold in_int32, min_int, max_int in *.

(** ** Roles *)

(** The consumer calls [TPCircularBufferConsume], the producer
    [TPCircularBufferProduce]. *)
Definition is_consume (o : op) : bool :=
  match o with
  | Consume _ => true
  | Produce _ => false
  end.

Definition is_produce (o : op) : bool := negb (is_consume o).

(** The buffer a run stops in, when it stops in one. *)
Definition final_state {A : Type} (o : outcome A) : option TPCircularBuffer :=
  match o with
  | Returned _ b => Some b
  | AssertFailed b => Some b
  | Undefined => None
  end.

(** The state after [len] bytes of [src] were copied to the write cursor
    and published, when neither sum wraps. *)
Definition written (b : TPCircularBuffer) (src : list byte) (len : Z) : TPCircularBuffer :=
  {| buffer := store_bytes (length b) (head b) (take (Z.to_nat len) src) (buffer b);
     length := length b;
     tail := tail b;
     head := (head b + len) mod length b;
     fillCount := fillCount b + len;
     atomic := atomic b |}.

(** The state after [amount] bytes were consumed, and after [amount]
    bytes were published, when no sum wraps. *)
Definition consumed (b : TPCircularBuffer) (amount : Z) : TPCircularBuffer :=
  {| buffer := buffer b; length := length b;
     tail := (tail b + amount) mod length b;
     head := head b;
     fillCount := fillCount b - amount;
     atomic := atomic b |}.

Definition published (b : TPCircularBuffer) (amount : Z) : TPCircularBuffer :=
  {| buffer := buffer b; length := length b;
     tail := tail b;
     head := (head b + amount) mod length b;
     fillCount := fillCount b + amount;
     atomic := atomic b |}.

(** A hundred unread bytes past the middle of the page, in plain mode. *)
Definition busy4096 : TPCircularBuffer :=
  mkTPCircularBuffer (replicate 4096 x00) 4096 3000 3100 100 false.

(** * Arithmetic facts *)

Lemma wrap32_exact (z : Z) : in_int32 z -> wrap32 z = z.
Proof.
  unfold in_int32, min_int, max_int, wrap32. intros Hz.
  rewrite Z.mod_small by lia. lia.
Qed.

Lemma wrap32_range (z : Z) : in_int32 (wrap32 z).
Proof.
  unfold in_int32, min_int, max_int, wrap32.
  pose proof (Z.mod_pos_bound (z + 2147483648) 4294967296 ltac:(lia)). lia.
Qed.

Lemma neg32_exact (z : Z) : min_int < z <= max_int -> neg32 z = - z.
Proof.
  intros Hz. apply wrap32_exact. unfold in_int32, min_int, max_int in *. lia.
Qed.

Lemma rem_traps_pos (x y : Z) : 0 < y -> rem_traps x y = false.
Proof.
  intros Hy. unfold rem_traps.
  destruct (Z.eqb_spec y 0); [lia|].
  destruct (Z.eqb_spec y (-1)); [lia|].
  now rewrite andb_false_r.
Qed.

(** * The calls, in closed form *)

Lemma TPCircularBufferConsume_eq (amount : Z) (b : TPCircularBuffer) :
  TPCircularBufferConsume amount b =
    if rem_traps (add32 (tail b) amount) (length b) then Undefined
    else Returned tt
           {| buffer := buffer b; length := length b;
              tail := Z.rem (add32 (tail b) amount) (length b);
              head := head b;
              fillCount := sub32 (fillCount b) amount;
              atomic := atomic b |}.
Proof.
  destruct b as [mem len tl hd fc at_].
  unfold TPCircularBufferConsume, bind, get, rem32, modify, undefined, ret; simpl.
  destruct (rem_traps (add32 tl amount) len); [reflexivity|].
  destruct at_; reflexivity.
Qed.

Lemma TPCircularBufferConsumeNoBarrier_eq (amount : Z) (b : TPCircularBuffer) :
  TPCircularBufferConsumeNoBarrier amount b =
    if rem_traps (add32 (tail b) amount) (length b) then Undefined
    else Returned tt
           {| buffer := buffer b; length := length b;
              tail := Z.rem (add32 (tail b) amount) (length b);
              head := head b;
              fillCount := sub32 (fillCount b) amount;
              atomic := atomic b |}.
Proof.
  destruct b as [mem len tl hd fc at_].
  unfold TPCircularBufferConsumeNoBarrier, bind, get, rem32, modify, undefined, ret; simpl.
  destruct (rem_traps (add32 tl amount) len); reflexivity.
Qed.

Lemma TPCircularBufferProduce_eq (amount : Z) (b : TPCircularBuffer) :
  TPCircularBufferProduce amount b =
    if rem_traps (add32 (head b) amount) (length b) then Undefined
    else if add32 (fillCount b) amount <=? length b
         then Returned (fillCount b) (produced amount b)
         else AssertFailed (produced amount b).
Proof.
  destruct b as [mem len tl hd fc at_].
  unfold TPCircularBufferProduce, produced, bind, get, rem32, modify, undefined, ret,
    assert, atomic_fetch_add_explicit; simpl.
  destruct (rem_traps (add32 hd amount) len); [reflexivity|].
  destruct at_; simpl; destruct (add32 fc amount <=? len); reflexivity.
Qed.

Lemma TPCircularBufferProduceNoBarrier_eq (amount : Z) (b : TPCircularBuffer) :
  TPCircularBufferProduceNoBarrier amount b =
    if rem_traps (add32 (head b) amount) (length b) then Undefined
    else if add32 (fillCount b) amount <=? length b
         then Returned tt (produced amount b)
         else AssertFailed (produced amount b).
Proof.
  destruct b as [mem len tl hd fc at_].
  unfold TPCircularBufferProduceNoBarrier, produced, bind, get, rem32, modify,
    undefined, ret, assert; simpl.
  destruct (rem_traps (add32 hd amount) len); [reflexivity|].
  simpl. destruct (add32 fc amount <=? len); reflexivity.
Qed.

(** * The access functions *)

(** C6. [TPCircularBufferTail] reports no byte and no pointer when the fill
    count it loads is zero or negative, and otherwise reports exactly the
    fill count together with the address of the read cursor. *)
Theorem TPCircularBufferTail_reports (b : TPCircularBuffer) :
  (fillCount b <= 0 /\ TPCircularBufferTail b = (NULL, 0)) \/
  (0 < fillCount b /\ TPCircularBufferTail b = (Addr (tail b), fillCount b)).
Proof.
  unfold TPCircularBufferTail, atomic_load_explicit.
  assert (Hload : (if atomic b then fillCount b else fillCount b) = fillCount b)
    by now destruct (atomic b).
  rewrite Hload.
  destruct (Z.leb_spec (fillCount b) 0) as [Hle | Hgt].
  - left. split; [exact Hle | reflexivity].
  - right. split; [exact Hgt |].
    destruct (Z.eqb_spec (fillCount b) 0); [lia | reflexivity].
Qed.

(** C5. [TPCircularBufferHead] on a well-formed state: with a fill count of
    zero or less the whole capacity is available and the discard count is
    the (32-bit) negation of the fill count, which is [- fillCount] for
    every fill count above [min_int]; with a positive fill count
    [length - fillCount] bytes are available and nothing is discarded. The
    pointer is [NULL] exactly when no byte is available, and is the address
    of the write cursor otherwise. *)
Theorem TPCircularBufferHead_reports (b : TPCircularBuffer) :
  wf b ->
  exists ptr availableBytes discardBytes,
    TPCircularBufferHead b = (ptr, availableBytes, discardBytes) /\
    ((fillCount b <= 0 /\ availableBytes = length b /\
      discardBytes = neg32 (fillCount b) /\
      (min_int < fillCount b -> discardBytes = - fillCount b)) \/
     (0 < fillCount b /\ availableBytes = length b - fillCount b /\
      discardBytes = 0)) /\
    (ptr = NULL <-> availableBytes = 0) /\
    (availableBytes <> 0 -> ptr = Addr (head b)).
Proof.
  intros [Hlen _ _ Hfill _].
  unfold TPCircularBufferHead, atomic_load_explicit.
  assert (Hload : (if atomic b then fillCount b else fillCount b) = fillCount b)
    by now destruct (atomic b).
  rewrite Hload. clear Hload.
  unfold in_int32, min_int, max_int in *.
  destruct (Z.leb_spec (fillCount b) 0) as [Hle | Hgt].
  - destruct (Z.eqb_spec (length b) 0) as [E | E]; [lia|].
    eexists _, _, _. split; [reflexivity|]. split; [|split].
    + left. repeat split; try lia.
      intros Hmin. apply neg32_exact. unfold min_int, max_int. lia.
    + split; [discriminate | intros; lia].
    + reflexivity.
  - assert (Hsub : sub32 (length b) (fillCount b) = length b - fillCount b).
    { apply wrap32_exact. unfold in_int32, min_int, max_int. lia. }
    rewrite Hsub.
    destruct (Z.eqb_spec (length b - fillCount b) 0) as [E | E];
      (eexists _, _, _; split; [reflexivity|]; split; [|split]).
    + right. lia.
    + split; [intros _; exact E | reflexivity].
    + intros; contradiction.
    + right. lia.
    + split; [discriminate | intros; contradiction].
    + reflexivity.
Qed.

Lemma TPCircularBufferHead_reports_witness :
  wf raced4096 /\ TPCircularBufferHead raced4096 = (Addr 0, 4096, 2).
Proof.
  split; [solve_wf |].
  destruct (TPCircularBufferHead_reports raced4096)
    as (ptr & availableBytes & discardBytes & -> & Hcase & _ & Hptr);
    [solve_wf |].
  destruct Hcase as [(_ & -> & _ & Hdiscard) | (Hpos & _)].
  - rewrite Hdiscard by reflexivity.
    rewrite Hptr by discriminate. reflexivity.
  - discriminate Hpos.
Defined.

(** C10. The access functions only observe. Run as calls on the buffer,
    [TPCircularBufferTail] and [TPCircularBufferHead] return with the buffer
    (every field and the region) exactly as it was, and what they report is
    a function of that buffer alone. Hence any number of calls in a row
    report the same values each time and leave the buffer as it was, and
    whatever runs next behaves as if they had not been made. *)
Theorem access_functions_observe_only (b : TPCircularBuffer) (n : nat) :
  Call.TPCircularBufferTail b = Returned (TPCircularBufferTail b) b /\
  Call.TPCircularBufferHead b = Returned (TPCircularBufferHead b) b /\
  call_times Call.TPCircularBufferTail n b
    = Returned (replicate n (TPCircularBufferTail b)) b /\
  call_times Call.TPCircularBufferHead n b
    = Returned (replicate n (TPCircularBufferHead b)) b /\
  (forall (B : Type) (k : M B),
      (let* _ := call_times Call.TPCircularBufferTail n in k) b = k b /\
      (let* _ := call_times Call.TPCircularBufferHead n in k) b = k b).
Proof.
  assert (Htail : Call.TPCircularBufferTail b = Returned (TPCircularBufferTail b) b).
  { unfold Call.TPCircularBufferTail, TPCircularBufferTail, bind, gets, ret.
    destruct (atomic b);
      destruct ((if _ <=? 0 then 0 else _) =? 0); reflexivity. }
  assert (Hhead : Call.TPCircularBufferHead b = Returned (TPCircularBufferHead b) b).
  { unfold Call.TPCircularBufferHead, TPCircularBufferHead, bind, gets, ret.
    destruct (atomic b); unfold atomic_load_explicit;
      destruct (fillCount b <=? 0);
      match goal with |- context [?x =? 0] => destruct (x =? 0) end;
      reflexivity. }
  assert (Hrep : forall (A : Type) (c : M A) (r : A),
             c b = Returned r b ->
             call_times c n b = Returned (replicate n r) b).
  { intros A c r Hc. induction n as [| m IH]; [reflexivity |].
    simpl. unfold bind. rewrite Hc, IH. reflexivity. }
  split; [exact Htail |]. split; [exact Hhead |].
  split; [now apply Hrep |]. split; [now apply Hrep |].
  intros B k. unfold bind.
  rewrite (Hrep _ _ _ Htail), (Hrep _ _ _ Hhead). split; reflexivity.
Qed.

(** * Atomic mode, plain mode and the deprecated variants *)

Lemma observe_forget_mode {A : Type} (o : outcome A) :
  observe (forget_mode o) = observe o.
Proof. destruct o; reflexivity. Qed.

Lemma run_op_any_mode (o : op) (b1 b2 : TPCircularBuffer) :
  set_atomic true b1 = set_atomic true b2 ->
  forget_mode (run_op o b1) = forget_mode (run_op o b2).
Proof.
  intros H. same_fields H.
  destruct o as [amount | amount]; unfold run_op, bind.
  - rewrite !TPCircularBufferConsume_eq; simpl.
    destruct (rem_traps _ _); reflexivity.
  - rewrite !TPCircularBufferProduce_eq; simpl.
    destruct (rem_traps _ _); [reflexivity|].
    destruct (_ <=? _); reflexivity.
Qed.

Lemma run_op_legacy_plain (o : op) (b1 b2 : TPCircularBuffer) :
  set_atomic true b1 = set_atomic true b2 ->
  forget_mode (run_op_legacy o b1) = forget_mode (run_op o b2).
Proof.
  intros H. same_fields H.
  destruct o as [amount | amount]; unfold run_op, run_op_legacy, bind.
  - rewrite TPCircularBufferConsume_eq, TPCircularBufferConsumeNoBarrier_eq; simpl.
    destruct (rem_traps _ _); reflexivity.
  - rewrite TPCircularBufferProduce_eq, TPCircularBufferProduceNoBarrier_eq; simpl.
    destruct (rem_traps _ _); [reflexivity|].
    destruct (_ <=? _); reflexivity.
Qed.

Lemma run_forget_mode (step1 step2 : op -> M unit) :
  (forall o b1 b2, set_atomic true b1 = set_atomic true b2 ->
                   forget_mode (step1 o b1) = forget_mode (step2 o b2)) ->
  forall ops b1 b2,
    set_atomic true b1 = set_atomic true b2 ->
    forget_mode (run step1 ops b1) = forget_mode (run step2 ops b2).
Proof.
  intros Hstep ops. induction ops as [| o ops IH]; intros b1 b2 Hb.
  - simpl. unfold ret. simpl. now rewrite Hb.
  - simpl. unfold bind. specialize (Hstep o b1 b2 Hb).
    destruct (step1 o b1) as [[] c1 | c1 |], (step2 o b2) as [[] c2 | c2 |];
      simpl in Hstep; try discriminate; try exact Hstep.
    apply IH. congruence.
Qed.

(** C9. Run one after the other from the same state, a sequence of produce
    and consume calls leaves the same fill count, read cursor and write
    cursor, and ends the same way, whether the buffer is in atomic mode, in
    plain mode, or driven through the deprecated NoBarrier variants. *)
Theorem modes_agree_sequentially (b : TPCircularBuffer) (ops : list op) :
  observe (run run_op ops (set_atomic true b))
    = observe (run run_op ops (set_atomic false b)) /\
  observe (run run_op_legacy ops b)
    = observe (run run_op ops (set_atomic false b)) /\
  observe (run run_op_legacy ops b)
    = observe (run run_op ops (set_atomic true b)).
Proof.
  assert (H1 : forget_mode (run run_op ops (set_atomic true b))
               = forget_mode (run run_op ops (set_atomic false b))).
  { apply run_forget_mode; [exact run_op_any_mode | reflexivity]. }
  assert (H2 : forget_mode (run run_op_legacy ops b)
               = forget_mode (run run_op ops (set_atomic false b))).
  { apply run_forget_mode; [exact run_op_legacy_plain | reflexivity]. }
  rewrite <- (observe_forget_mode (run run_op ops (set_atomic true b))).
  rewrite <- (observe_forget_mode (run run_op ops (set_atomic false b))).
  rewrite <- (observe_forget_mode (run run_op_legacy ops b)).
  rewrite H1, H2. repeat split.
Qed.

(** * The bulk write: refusal *)

(** C3. When the space [TPCircularBufferHead] reports is below the number of
    bytes to copy, [len - discard] as the function computes it on
    [int32_t], [TPCircularBufferProduceBytes] returns [false] and the buffer
    is exactly as before: same counter, same cursors, same region. *)
Theorem TPCircularBufferProduceBytes_refuses
    (b : TPCircularBuffer) (src : list byte) (len : Z)
    (ptr : pointer) (space discard : Z) :
  TPCircularBufferHead b = (ptr, space, discard) ->
  space < sub32 len discard ->
  TPCircularBufferProduceBytes src len b = Returned false b.
Proof.
  intros Hhead Hlt.
  unfold TPCircularBufferProduceBytes, bind, gets. rewrite Hhead.
  destruct (Z.ltb_spec space (sub32 len discard)); [reflexivity | lia].
Qed.

Lemma TPCircularBufferProduceBytes_refuses_witness :
  TPCircularBufferHead nearly_full4096 = (Addr 4086, 10, 0) /\
  10 < sub32 20 0 /\
  TPCircularBufferProduceBytes (replicate 20 x41) 20 nearly_full4096
    = Returned false nearly_full4096.
Proof.
  split; [reflexivity |]. split; [reflexivity |].
  apply (TPCircularBufferProduceBytes_refuses
           nearly_full4096 (replicate 20 x41) 20 (Addr 4086) 10 0);
    reflexivity.
Defined.

(** The same with the subtraction read in the integers, for a fill count
    above [min_int]. *)
Lemma TPCircularBufferProduceBytes_refuses_exact
    (b : TPCircularBuffer) (src : list byte) (len : Z)
    (ptr : pointer) (space discard : Z) :
  wf b -> in_int32 len -> min_int < fillCount b ->
  TPCircularBufferHead b = (ptr, space, discard) ->
  space < len - discard ->
  TPCircularBufferProduceBytes src len b = Returned false b.
Proof.
  intros [Hcap _ _ Hfill _] Hlen Hmin Hhead Hlt.
  assert (Hsub : sub32 len discard = len - discard).
  { apply wrap32_exact. revert Hhead Hlt.
    unfold TPCircularBufferHead, atomic_load_explicit.
    replace (if atomic b then fillCount b else fillCount b) with (fillCount b)
      by now destruct (atomic b).
    unfold in_int32, min_int, max_int in *.
    destruct (Z.leb_spec (fillCount b) 0) as [Hle | Hgt].
    - rewrite neg32_exact by (unfold min_int, max_int; lia).
      destruct (length b =? 0); intros [= _ <- <-]; lia.
    - unfold sub32. rewrite (wrap32_exact (length b - fillCount b))
        by (unfold in_int32, min_int, max_int; lia).
      destruct (length b - fillCount b =? 0); intros [= _ <- <-]; lia. }
  unfold TPCircularBufferProduceBytes, bind, gets. rewrite Hhead, Hsub.
  destruct (Z.ltb_spec space (len - discard)); [reflexivity | lia].
Qed.

(** * Producing *)

(** C7, as the code has it. On a well-formed state, for an amount that
    keeps [head + amount] between 0 and [max_int] and [fillCount + amount]
    in the 32-bit range, [TPCircularBufferProduce] moves the write cursor to
    [(head + amount) mod length], adds the amount to the fill count and
    leaves every other field alone; it then returns the fill count it read,
    unless the new fill count exceeds the capacity, in which case the
    assertion stops the run after the update. *)
Theorem TPCircularBufferProduce_updates (b : TPCircularBuffer) (amount : Z) :
  wf b ->
  0 <= head b + amount <= max_int ->
  in_int32 (fillCount b + amount) ->
  TPCircularBufferProduce amount b =
    let b' := {| buffer := buffer b; length := length b; tail := tail b;
                 head := (head b + amount) mod length b;
                 fillCount := fillCount b + amount;
                 atomic := atomic b |} in
    if fillCount b + amount <=? length b
    then Returned (fillCount b) b'
    else AssertFailed b'.
Proof.
  intros [Hcap _ Hhead _ _] Hsum Hfill.
  rewrite TPCircularBufferProduce_eq. unfold produced, add32.
  rewrite (wrap32_exact (head b + amount)) by (int32_bounds; lia).
  rewrite (wrap32_exact (fillCount b + amount)) by exact Hfill.
  rewrite rem_traps_pos by lia.
  rewrite Z.rem_mod_nonneg by lia.
  reflexivity.
Qed.

Lemma TPCircularBufferProduce_updates_witness :
  wf empty4096 /\
  TPCircularBufferProduce 100 empty4096 =
    Returned 0 (mkTPCircularBuffer (replicate 4096 x00) 4096 0 100 100 true).
Proof.
  split; [solve_wf |].
  apply (TPCircularBufferProduce_updates empty4096 100);
    [solve_wf | by_eval | by_eval].
Defined.

(** C7 as stated fails for an amount that takes the cursor below zero: the
    C remainder truncates, so the cursor becomes negative instead of
    wrapping to the top of the buffer. *)
Lemma TPCircularBufferProduce_negative_amount :
  wf empty4096 /\ in_int32 (-1) /\
  exists b',
    TPCircularBufferProduce (-1) empty4096 = Returned 0 b' /\
    head b' = -1 /\
    (head empty4096 + -1) mod length empty4096 = 4095.
Proof.
  split; [solve_wf |]. split; [int32_bounds; lia |].
  eexists. split; [vm_compute; reflexivity |]. split; reflexivity.
Qed.

(** Past the capacity the call does not return at all: the update is made
    and the assertion stops the run. *)
Lemma TPCircularBufferProduce_overrun_aborts :
  TPCircularBufferProduce 4097 empty4096
    = AssertFailed (mkTPCircularBuffer (replicate 4096 x00) 4096 0 1 4097 true).
Proof. vm_compute. reflexivity. Qed.

(** C8, as the code has it. On a well-formed state the assertion of
    [TPCircularBufferProduce] fires exactly when the fill count it has just
    stored exceeds the capacity; that stored value is [fillCount + amount]
    whenever the sum fits 32 bits. If the amount is at most the space
    [TPCircularBufferHead] reports for the state, and the sum does not fall
    below [min_int] (no negative amount on an already negative count can do
    that unless it wraps), the assertion does not fire and the call
    returns. *)
Theorem TPCircularBufferProduce_assertion (b : TPCircularBuffer) (amount : Z) :
  wf b -> in_int32 amount ->
  ((exists b', TPCircularBufferProduce amount b = AssertFailed b')
     <-> length b < fillCount (produced amount b)) /\
  (in_int32 (fillCount b + amount) ->
     fillCount (produced amount b) = fillCount b + amount) /\
  (min_int <= fillCount b + amount -> respects b (Produce amount) ->
     fillCount b + amount <= length b /\
     TPCircularBufferProduce amount b = Returned (fillCount b) (produced amount b)).
Proof.
  intros [Hcap _ _ Hfill _] Hamount.
  rewrite TPCircularBufferProduce_eq, rem_traps_pos by lia.
  split; [| split].
  - simpl. destruct (Z.leb_spec (add32 (fillCount b) amount) (length b)) as [Hle | Hgt].
    + split; [intros [b' Hb']; discriminate | lia].
    + split; [intros _; exact Hgt | intros _; eexists; reflexivity].
  - intros Hsum. simpl. now apply wrap32_exact.
  - intros Hlow Hpre.
    assert (Hle : fillCount b + amount <= length b).
    { revert Hpre. unfold respects, TPCircularBufferHead, atomic_load_explicit.
      replace (if atomic b then fillCount b else fillCount b) with (fillCount b)
        by now destruct (atomic b).
      int32_bounds.
      destruct (Z.leb_spec (fillCount b) 0) as [Hneg | Hpos].
      - destruct (length b =? 0); simpl; lia.
      - unfold sub32. rewrite (wrap32_exact (length b - fillCount b))
          by (int32_bounds; lia).
        destruct (length b - fillCount b =? 0); simpl; lia. }
    split; [exact Hle |].
    unfold add32. rewrite wrap32_exact by (int32_bounds; lia).
    destruct (Z.leb_spec (fillCount b + amount) (length b)); [reflexivity | lia].
Qed.

Lemma TPCircularBufferProduce_assertion_witness :
  wf empty4096 /\ in_int32 4096 /\
  TPCircularBufferProduce 4096 empty4096 = Returned 0 (produced 4096 empty4096).
Proof.
  split; [solve_wf |]. split; [by_eval |].
  apply (TPCircularBufferProduce_assertion empty4096 4096);
    [solve_wf | by_eval | by_eval | by_eval].
Defined.

(** C8 as stated fails where the 32-bit sum wraps: with the fill count at
    [min_int] and an amount of -1 the precondition holds, the count stored
    is [max_int], and the assertion fires. *)
Lemma TPCircularBufferProduce_assertion_wraps :
  wf drained4096 /\ in_int32 (-1) /\
  respects drained4096 (Produce (-1)) /\
  TPCircularBufferProduce (-1) drained4096
    = AssertFailed (mkTPCircularBuffer (replicate 4096 x00) 4096 0 (-1) max_int true).
Proof.
  split; [solve_wf |]. split; [int32_bounds; lia |].
  split; [vm_compute; discriminate | vm_compute; reflexivity].
Qed.

(** * The quiescent invariant *)

Lemma respects_consume (b : TPCircularBuffer) (amount : Z) :
  0 <= fillCount b -> respects b (Consume amount) -> amount <= fillCount b.
Proof.
  unfold respects, TPCircularBufferTail, atomic_load_explicit.
  replace (if atomic b then fillCount b else fillCount b) with (fillCount b)
    by now destruct (atomic b).
  intros Hfill.
  destruct (Z.leb_spec (fillCount b) 0).
  - simpl. lia.
  - destruct (fillCount b =? 0); simpl; lia.
Qed.

Lemma respects_produce (b : TPCircularBuffer) (amount : Z) :
  wf b -> 0 <= fillCount b -> respects b (Produce amount) ->
  fillCount b + amount <= length b.
Proof.
  intros [Hcap _ _ Hfc _].
  unfold respects, TPCircularBufferHead, atomic_load_explicit.
  replace (if atomic b then fillCount b else fillCount b) with (fillCount b)
    by now destruct (atomic b).
  intros Hfill. int32_bounds.
  destruct (Z.leb_spec (fillCount b) 0).
  - destruct (length b =? 0); simpl; lia.
  - unfold sub32. rewrite (wrap32_exact (length b - fillCount b))
      by (int32_bounds; lia).
    destruct (length b - fillCount b =? 0); simpl; lia.
Qed.

Lemma steady_step (b : TPCircularBuffer) (o : op) :
  steady b -> 0 <= amount_of o -> respects b o ->
  exists b', run_op o b = Returned tt b' /\ steady b'.
Proof.
  intros (Hwf & Hcap & Htail & Hfill & Hhead) Hpos Hpre.
  pose proof Hwf as [Hlen Htl Hhd Hfc Hmem].
  assert (Hhead_range : 0 <= head b < length b).
  { rewrite Hhead. apply Z.mod_pos_bound. lia. }
  destruct o as [amount | amount]; simpl in Hpos.
  - apply respects_consume in Hpre; [| lia].
    unfold run_op. rewrite TPCircularBufferConsume_eq.
    unfold add32, sub32.
    rewrite (wrap32_exact (tail b + amount)) by (int32_bounds; lia).
    rewrite (wrap32_exact (fillCount b - amount)) by (int32_bounds; lia).
    rewrite rem_traps_pos, Z.rem_mod_nonneg by lia.
    eexists. split; [reflexivity |].
    pose proof (Z.mod_pos_bound (tail b + amount) (length b) ltac:(lia)).
    repeat split; simpl; try (int32_bounds; lia).
    rewrite Z.add_mod_idemp_l by lia.
    rewrite Hhead. f_equal. lia.
  - apply respects_produce in Hpre; [| exact Hwf | lia].
    unfold run_op, bind. rewrite TPCircularBufferProduce_eq.
    unfold produced, add32.
    rewrite (wrap32_exact (head b + amount)) by (int32_bounds; lia).
    rewrite (wrap32_exact (fillCount b + amount)) by (int32_bounds; lia).
    rewrite rem_traps_pos, Z.rem_mod_nonneg by lia.
    destruct (Z.leb_spec (fillCount b + amount) (length b)); [| lia].
    eexists. split; [reflexivity |].
    pose proof (Z.mod_pos_bound (head b + amount) (length b) ltac:(lia)).
    repeat split; simpl; try (int32_bounds; lia).
    rewrite Hhead, Z.add_mod_idemp_l by lia.
    f_equal. lia.
Qed.

Lemma TPCircularBufferClear_cleared (b : TPCircularBuffer) :
  wf b ->
  exists b', TPCircularBufferClear b = Returned tt b' /\ cleared b' /\ wf b' /\
             length b' = length b.
Proof.
  intros [Hcap _ _ _ Hmem]. eexists. split; [reflexivity |].
  split; [repeat split |]. split; [| reflexivity].
  constructor; simpl; try assumption; int32_bounds; lia.
Qed.

Lemma cleared_steady (b : TPCircularBuffer) :
  wf b -> length b <= 1073741824 -> cleared b -> steady b.
Proof.
  intros Hwf Hcap (Ht & Hh & Hf).
  pose proof Hwf as [Hlen _ _ _ _].
  split; [exact Hwf |]. split; [exact Hcap |]. split; [lia |].
  split; [lia |].
  rewrite Ht, Hh, Hf. simpl. now rewrite Z.mod_0_l by lia.
Qed.

Lemma reachable_nonneg_steady (b0 b : TPCircularBuffer) :
  steady b0 -> reachable_nonneg b0 b -> steady b.
Proof.
  intros H0 Hreach. induction Hreach as [| b o b' _ IH Hpos Hpre Hrun].
  - exact H0.
  - destruct (steady_step b o IH Hpos Hpre) as (b'' & Hrun' & Hsteady).
    congruence.
Qed.

(** C1, as the code has it. Start from a well-formed buffer just
    initialised or cleared, of capacity at most 2^30, and make any sequence
    of consume and produce calls whose amounts are not negative and are at
    most what the matching access function reports. Then the state reached
    satisfies [0 <= fillCount <= length] and
    [head = (tail + fillCount) mod length], and every further such call
    returns (its assertion holds and nothing is undefined). *)
Theorem quiescent_invariant (b0 b : TPCircularBuffer) :
  wf b0 -> length b0 <= 1073741824 -> cleared b0 ->
  reachable_nonneg b0 b ->
  quiescent b /\
  (forall o, 0 <= amount_of o -> respects b o ->
             exists b', run_op o b = Returned tt b').
Proof.
  intros Hwf Hcap Hclear Hreach.
  assert (Hsteady : steady b).
  { eapply reachable_nonneg_steady; [| exact Hreach]. now apply cleared_steady. }
  split; [apply Hsteady |].
  intros o Hpos Hpre.
  destruct (steady_step b o Hsteady Hpos Hpre) as (b' & Hrun & _). eauto.
Qed.

Lemma quiescent_invariant_witness :
  wf empty4096 /\ cleared empty4096 /\
  quiescent (mkTPCircularBuffer (replicate 4096 x00) 4096 40 100 60 true).
Proof.
  split; [solve_wf |]. split; [repeat split |].
  apply (quiescent_invariant empty4096
           (mkTPCircularBuffer (replicate 4096 x00) 4096 40 100 60 true));
    [solve_wf | by_eval | repeat split |].
  apply (reachable_nonneg_step empty4096
           (mkTPCircularBuffer (replicate 4096 x00) 4096 0 100 100 true)
           (Consume 40));
    [| by_eval | by_eval | by_eval].
  apply (reachable_nonneg_step empty4096 empty4096 (Produce 100));
    [apply reachable_nonneg_start | by_eval | by_eval | by_eval].
Defined.

(** C1 as stated fails: an amount below zero is at most whatever the access
    function reports. Producing -1 on a cleared buffer meets the stated
    precondition and leaves a negative fill count. *)
Lemma quiescent_invariant_negative_amount :
  wf empty4096 /\ cleared empty4096 /\
  reachable empty4096 wrapped_produce /\
  ~ quiescent wrapped_produce.
Proof.
  split; [solve_wf |]. split; [repeat split |]. split.
  - apply (reachable_step empty4096 empty4096 (Produce (-1)));
      [apply reachable_start | by_eval | by_eval].
  - unfold quiescent, wrapped_produce; simpl. lia.
Qed.

(** The bound on the capacity matters too: above 2^30 the 32-bit sum of a
    cursor and an amount can wrap. Only the counter and the cursors take
    part, so the region is left out of this example. *)
Lemma quiescent_invariant_large_capacity :
  let cap := 1073745920 in
  let b0 := mkTPCircularBuffer [] cap 0 0 0 true in
  exists b,
    run run_op [Produce (cap - 1); Consume (cap - 1); Produce cap] b0 = Returned tt b /\
    respects b0 (Produce (cap - 1)) /\
    fillCount b = cap /\ tail b = cap - 1 /\ head b < 0.
Proof.
  eexists. split; [vm_compute; reflexivity |].
  split; [vm_compute; discriminate |].
  repeat split.
Qed.

(** * The mirrored region: stores and loads *)

Lemma phys_lt (cap off : Z) (mem : list byte) :
  0 < cap -> Z.of_nat (List.length mem) = cap -> (phys cap off < List.length mem)%nat.
Proof.
  intros Hcap Hmem. unfold phys.
  pose proof (Z.mod_pos_bound off cap Hcap). lia.
Qed.

Lemma phys_distinct (cap off j : Z) :
  0 < cap -> 0 < j < cap -> phys cap (off + j) <> phys cap off.
Proof.
  intros Hcap Hj Heq. unfold phys in Heq.
  apply Z2Nat.inj in Heq; try (apply Z.mod_pos_bound; lia).
  assert (Hz : (off + j - off) mod cap = 0).
  { rewrite Zminus_mod, Heq, Z.sub_diag. now apply Z.mod_0_l, Z.neq_sym, Z.lt_neq. }
  replace (off + j - off) with j in Hz by lia.
  rewrite Z.mod_small in Hz by lia. lia.
Qed.

Lemma phys_congr (cap x y : Z) :
  0 < cap -> x mod cap = y mod cap -> forall k, phys cap (x + k) = phys cap (y + k).
Proof.
  intros Hcap Hxy k. unfold phys. f_equal.
  rewrite <- (Z.add_mod_idemp_l x), <- (Z.add_mod_idemp_l y) by lia.
  now rewrite Hxy.
Qed.

Lemma store_bytes_length (cap : Z) (bs : list byte) :
  forall off mem, List.length (store_bytes cap off bs mem) = List.length mem.
Proof.
  induction bs as [| x bs IH]; intros off mem; simpl; [reflexivity |].
  now rewrite IH, length_insert.
Qed.

Lemma store_bytes_other (cap : Z) (bs : list byte) :
  forall off mem i,
    (forall k, 0 <= k < Z.of_nat (List.length bs) -> phys cap (off + k) <> i) ->
    store_bytes cap off bs mem !! i = mem !! i.
Proof.
  induction bs as [| x bs IH]; intros off mem i Hout; simpl; [reflexivity |].
  rewrite IH.
  - apply list_lookup_insert_ne.
    specialize (Hout 0). rewrite Z.add_0_r in Hout. apply Hout.
    simpl. lia.
  - intros k Hk. replace (off + 1 + k) with (off + (k + 1)) by lia.
    apply Hout. simpl. lia.
Qed.

Lemma store_bytes_lookup (cap : Z) (bs : list byte) :
  forall off mem (k : nat),
    0 < cap -> Z.of_nat (List.length mem) = cap ->
    Z.of_nat (List.length bs) <= cap ->
    (k < List.length bs)%nat ->
    store_bytes cap off bs mem !! phys cap (off + Z.of_nat k) = bs !! k.
Proof.
  induction bs as [| x bs IH]; intros off mem k Hcap Hmem Hfit Hk; simpl in *.
  - lia.
  - destruct k as [| k].
    + rewrite Z.add_0_r, store_bytes_other.
      * apply list_lookup_insert_eq. now apply phys_lt.
      * intros j Hj. replace (off + 1 + j) with (off + (j + 1)) by lia.
        apply phys_distinct; lia.
    + replace (off + Z.of_nat (S k)) with (off + 1 + Z.of_nat k) by lia.
      apply IH; try lia. rewrite length_insert. exact Hmem.
Qed.

Lemma load_bytes_lookup (cap : Z) (mem l : list byte) :
  forall off,
    (forall k : nat, (k < List.length l)%nat ->
                     mem !! phys cap (off + Z.of_nat k) = l !! k) ->
    load_bytes cap off (List.length l) mem = Some l.
Proof.
  induction l as [| x l IH]; intros off Hl; simpl; [reflexivity |].
  pose proof (Hl O ltac:(simpl; lia)) as H0.
  rewrite Z.add_0_r in H0. simpl in H0. rewrite H0, IH; [reflexivity |].
  intros k Hk. specialize (Hl (S k) ltac:(simpl; lia)). simpl in Hl.
  rewrite <- Hl. f_equal. f_equal. lia.
Qed.

(** What was stored at [off] is what a load finds at any offset that names
    the same bytes. *)
Lemma load_store_bytes (cap off off' : Z) (bs mem : list byte) :
  0 < cap -> Z.of_nat (List.length mem) = cap ->
  Z.of_nat (List.length bs) <= cap ->
  off mod cap = off' mod cap ->
  load_bytes cap off' (List.length bs) (store_bytes cap off bs mem) = Some bs.
Proof.
  intros Hcap Hmem Hfit Hoff. apply load_bytes_lookup. intros k Hk.
  rewrite <- (phys_congr cap off off' Hcap Hoff).
  now apply store_bytes_lookup.
Qed.

Lemma set_buffer_same (b : TPCircularBuffer) : set_buffer (buffer b) b = b.
Proof. now destruct b. Qed.

(** The two cases of [TPCircularBufferHead] on a well-formed state. *)
Lemma TPCircularBufferHead_cases (b : TPCircularBuffer) (ptr : pointer) (space discard : Z) :
  wf b -> TPCircularBufferHead b = (ptr, space, discard) ->
  (fillCount b <= 0 /\ space = length b /\ discard = neg32 (fillCount b) /\
   ptr = Addr (head b)) \/
  (0 < fillCount b /\ space = length b - fillCount b /\ discard = 0 /\
   ptr = if space =? 0 then NULL else Addr (head b)).
Proof.
  intros [Hcap _ _ Hfill _].
  unfold TPCircularBufferHead, atomic_load_explicit.
  replace (if atomic b then fillCount b else fillCount b) with (fillCount b)
    by now destruct (atomic b).
  int32_bounds.
  destruct (Z.leb_spec (fillCount b) 0) as [Hle | Hgt].
  - destruct (Z.eqb_spec (length b) 0); [lia |].
    intros [= <- <- <-]. left. repeat split. exact Hle.
  - unfold sub32. rewrite (wrap32_exact (length b - fillCount b))
      by (int32_bounds; lia).
    destruct (length b - fillCount b =? 0) eqn:E; intros [= <- <- <-];
      right; rewrite E; repeat split; exact Hgt.
Qed.

Lemma neg32_min_int : neg32 min_int = min_int.
Proof. reflexivity. Qed.

(** * The bulk write: success *)

Lemma copied_bytes_length (src : list byte) (len discard : Z) :
  0 <= discard <= len -> len <= Z.of_nat (List.length src) ->
  List.length (copied_bytes src len discard) = Z.to_nat (len - discard).
Proof.
  intros Hd Hlen. unfold copied_bytes. rewrite length_take, length_drop. lia.
Qed.

Lemma copied_bytes_lookup (src : list byte) (len discard : Z) (k : nat) :
  0 <= discard <= len -> (k < Z.to_nat (len - discard))%nat ->
  copied_bytes src len discard !! k = src !! (Z.to_nat discard + k)%nat.
Proof.
  intros Hd Hk. unfold copied_bytes.
  rewrite lookup_take_lt by exact Hk. apply lookup_drop.
Qed.

Lemma TPCircularBufferProduceBytes_success
    (b : TPCircularBuffer) (src : list byte) (len : Z)
    (ptr : pointer) (space discard : Z) :
  wf b -> in_int32 len ->
  TPCircularBufferHead b = (ptr, space, discard) ->
  len - discard <= space ->
  0 <= discard <= len ->
  len <= Z.of_nat (List.length src) ->
  0 <= head b -> head b + len <= 2 * length b ->
  fillCount b + len <= length b /\
  in_int32 (fillCount b + len) /\
  memcpy (ptr_add ptr discard) src discard (to_size_t (sub32 len discard)) b
    = Returned tt (after_copy b src len discard) /\
  TPCircularBufferProduce len (after_copy b src len discard)
    = Returned (fillCount b) (produced len (after_copy b src len discard)) /\
  TPCircularBufferProduceBytes src len b
    = Returned true (produced len (after_copy b src len discard)).
Proof.
  intros Hwf Hlen Hhead Hspace Hd Hsrc Hh0 Hh1.
  pose proof Hwf as [Hcap _ _ Hfill _].
  assert (Hsub : sub32 len discard = len - discard).
  { apply wrap32_exact. int32_bounds. lia. }
  assert (Hsize : to_size_t (len - discard) = len - discard).
  { unfold to_size_t. apply Z.mod_small. int32_bounds. lia. }
  assert (Hsum : fillCount b + len <= length b /\ in_int32 (fillCount b + len)).
  { destruct (TPCircularBufferHead_cases b ptr space discard Hwf Hhead)
      as [(Hle & -> & Hdis & _) | (Hgt & -> & -> & _)]; int32_bounds.
    - destruct (Z.eq_dec (fillCount b) min_int) as [E | E].
      + rewrite E, neg32_min_int in Hdis. unfold min_int in Hdis. lia.
      + rewrite neg32_exact in Hdis by (unfold min_int, max_int in *; lia). lia.
    - lia. }
  destruct Hsum as [Hsum Hrange].
  assert (Hcopy : memcpy (ptr_add ptr discard) src discard
                    (to_size_t (sub32 len discard)) b
                  = Returned tt (after_copy b src len discard)).
  { rewrite Hsub, Hsize. unfold memcpy, after_copy, copied_bytes.
    destruct (Z.eqb_spec (len - discard) 0) as [E | E].
    - rewrite E. simpl. now rewrite set_buffer_same.
    - assert (Hptr : ptr = Addr (head b)).
      { destruct (TPCircularBufferHead_cases b ptr space discard Hwf Hhead)
          as [(_ & _ & _ & ->) | (_ & Hsp & _ & ->)]; [reflexivity |].
        destruct (Z.eqb_spec space 0); [lia | reflexivity]. }
      rewrite Hptr. simpl. unfold bind, get, in_bounds, mapped.
      replace (0 <=? head b + discard) with true by (symmetry; apply Z.leb_le; lia).
      replace (head b + discard + (len - discard) <=? 2 * length b) with true
        by (symmetry; apply Z.leb_le; lia).
      replace (0 <=? discard) with true by (symmetry; apply Z.leb_le; lia).
      replace (discard + (len - discard) <=? Z.of_nat (List.length src)) with true
        by (symmetry; apply Z.leb_le; lia).
      reflexivity. }
  assert (Hprod : TPCircularBufferProduce len (after_copy b src len discard)
                  = Returned (fillCount b) (produced len (after_copy b src len discard))).
  { rewrite TPCircularBufferProduce_eq. simpl.
    rewrite rem_traps_pos by lia.
    unfold add32. rewrite (wrap32_exact (fillCount b + len)) by exact Hrange.
    destruct (Z.leb_spec (fillCount b + len) (length b)); [reflexivity | lia]. }
  repeat split; try assumption; try (int32_bounds; lia).
  unfold TPCircularBufferProduceBytes, bind, gets. rewrite Hhead, Hsub.
  destruct (Z.ltb_spec space (len - discard)); [lia |].
  rewrite <- Hsub, Hcopy, Hprod. reflexivity.
Qed.

(** X14. Where the copy is in bounds the bulk write does what it says. On
    a well-formed state, when the reported space is at least
    [len - discard], the discard count is between 0 and [len], the source
    holds [len] bytes and the destination [head .. head + len] lies in the
    mirrored region, [TPCircularBufferProduceBytes] copies the
    [len - discard] source bytes from offset [discard] to offset [discard]
    past the write pointer and touches no other byte, then calls
    [TPCircularBufferProduce len], which publishes the full [len], and
    returns [true]. *)
Theorem TPCircularBufferProduceBytes_copies
    (b : TPCircularBuffer) (src : list byte) (len : Z)
    (ptr : pointer) (space discard : Z) :
  wf b -> in_int32 len ->
  TPCircularBufferHead b = (ptr, space, discard) ->
  len - discard <= space ->
  0 <= discard <= len ->
  len <= Z.of_nat (List.length src) ->
  0 <= head b -> head b + len <= 2 * length b ->
  let b1 := after_copy b src len discard in
  memcpy (ptr_add ptr discard) src discard (to_size_t (sub32 len discard)) b
    = Returned tt b1 /\
  (forall k : nat, (k < Z.to_nat (len - discard))%nat ->
     buffer b1 !! phys (length b) (head b + discard + Z.of_nat k)
       = src !! (Z.to_nat discard + k)%nat) /\
  (forall i : nat,
     (forall k, 0 <= k < len - discard -> phys (length b) (head b + discard + k) <> i) ->
     buffer b1 !! i = buffer b !! i) /\
  TPCircularBufferProduce len b1 = Returned (fillCount b) (produced len b1) /\
  fillCount (produced len b1) = fillCount b + len /\
  TPCircularBufferProduceBytes src len b = Returned true (produced len b1).
Proof.
  intros Hwf Hlen Hhead Hspace Hd Hsrc Hh0 Hh1 b1.
  destruct (TPCircularBufferProduceBytes_success b src len ptr space discard
              Hwf Hlen Hhead Hspace Hd Hsrc Hh0 Hh1)
    as (Hsum & Hrange & Hcopy & Hprod & Hall).
  pose proof Hwf as [Hcap _ _ Hfill Hmem].
  pose proof (copied_bytes_length src len discard Hd Hsrc) as Hclen.
  assert (Hfit : space <= length b).
  { destruct (TPCircularBufferHead_cases b ptr space discard Hwf Hhead)
      as [(_ & -> & _) | (Hgt & -> & _)]; lia. }
  split; [exact Hcopy |]. split; [| split; [| split; [exact Hprod | split; [| exact Hall]]]].
  - intros k Hk. unfold b1, after_copy. simpl.
    rewrite store_bytes_lookup; try lia.
    now apply copied_bytes_lookup.
  - intros i Hout. unfold b1, after_copy. simpl.
    apply store_bytes_other. intros k Hk. apply Hout. lia.
  - simpl. now apply wrap32_exact.
Qed.

Lemma TPCircularBufferProduceBytes_copies_witness :
  wf raced4096 /\
  TPCircularBufferHead raced4096 = (Addr 0, 4096, 2) /\
  TPCircularBufferProduceBytes [x61; x62; x63] 3 raced4096
    = Returned true (produced 3 (after_copy raced4096 [x61; x62; x63] 3 2)).
Proof.
  split; [solve_wf |]. split; [reflexivity |].
  apply (TPCircularBufferProduceBytes_copies raced4096 [x61; x62; x63] 3 (Addr 0) 4096 2);
    first [ solve_wf | by_eval ].
Defined.

(** C4. The code at the failing input: a fill count of -2, so two bytes
    to discard, and a write of one byte. [TPCircularBufferHead] reports the
    whole capacity, the space check compares it with [1 - 2] and lets the
    call through, and [memcpy] is asked for [(size_t) -1] bytes, past the
    one-byte source and past the region: the behaviour is undefined, where
    the claim has the call copy [len - discard] bytes and return success. *)
Theorem TPCircularBufferProduceBytes_short_write :
  wf raced4096 /\ in_int32 1 /\
  TPCircularBufferHead raced4096 = (Addr 0, 4096, 2) /\
  (4096 <? sub32 1 2) = false /\
  to_size_t (sub32 1 2) = 18446744073709551615 /\
  in_bounds raced4096 (ptr_add (Addr 0) 2) [x61] 2 (to_size_t (sub32 1 2)) = false /\
  TPCircularBufferProduceBytes [x61] 1 raced4096 = Undefined.
Proof.
  split; [solve_wf |]. split; [int32_bounds; lia |].
  repeat split; vm_compute; reflexivity.
Qed.

(** The same missing bound lets a long write run off the region. With the
    write cursor on the last byte and two bytes to discard, a write of 4098
    bytes passes the space check ([4098 - 2 <= 4096]) and [memcpy] is asked
    to store 4096 bytes from offset 4097, one byte past the 8192 mapped. *)
Lemma TPCircularBufferProduceBytes_long_write :
  wf raced_at_end4096 /\ in_int32 4098 /\
  TPCircularBufferHead raced_at_end4096 = (Addr 4095, 4096, 2) /\
  (4096 <? sub32 4098 2) = false /\
  to_size_t (sub32 4098 2) = 4096 /\
  mapped 4096 4097 4096 = false /\
  in_bounds raced_at_end4096 (ptr_add (Addr 4095) 2) (replicate 4098 x41) 2 4096 = false /\
  TPCircularBufferProduceBytes (replicate 4098 x41) 4098 raced_at_end4096 = Undefined.
Proof.
  split; [solve_wf |]. split; [int32_bounds; lia |].
  repeat split; vm_compute; reflexivity.
Qed.

(** * Round trip *)

(** C2, as the code has it. On a well-formed quiescent state whose read
    cursor is an offset into the buffer, writing [N] bytes that fit the
    reported space succeeds; [TPCircularBufferTail] then reports
    [fillCount + N] bytes, and the bytes written are the [N] bytes found
    [fillCount] bytes past the pointer it returns, in order, after the bytes
    that were already waiting. On an empty buffer they are therefore the
    first [N] bytes read back, and consuming [N] restores the fill count. *)
Theorem write_then_read (b : TPCircularBuffer) (src : list byte) :
  wf b -> 0 <= tail b < length b -> quiescent b ->
  Z.of_nat (List.length src) <= snd (fst (TPCircularBufferHead b)) ->
  let n := Z.of_nat (List.length src) in
  exists b',
    TPCircularBufferProduceBytes src n b = Returned true b' /\
    snd (TPCircularBufferTail b') = fillCount b + n /\
    read_bytes b' (ptr_add (fst (TPCircularBufferTail b')) (fillCount b)) n = Some src /\
    (fillCount b = 0 -> read_bytes b' (fst (TPCircularBufferTail b')) n = Some src) /\
    exists b'',
      TPCircularBufferConsume n b' = Returned tt b'' /\
      fillCount b'' = fillCount b /\ buffer b'' = buffer b'.
Proof.
  intros Hwf Htail (Hfc & Hq) Hfit n.
  pose proof Hwf as [Hcap Htl _ Hfill Hmem].
  destruct (TPCircularBufferHead b) as [[ptr space] discard] eqn:Hhead.
  simpl in Hfit.
  assert (Hhead_range : 0 <= head b < length b).
  { rewrite Hq. apply Z.mod_pos_bound. lia. }
  assert (Hcase : discard = 0 /\ space <= length b).
  { destruct (TPCircularBufferHead_cases b ptr space discard Hwf Hhead)
      as [(Hle & -> & -> & _) | (Hgt & -> & -> & _)].
    - replace (fillCount b) with 0 by lia. split; [reflexivity | lia].
    - split; [reflexivity | lia]. }
  destruct Hcase as [-> Hspace].
  assert (Hn : 0 <= n) by (unfold n; lia).
  destruct (TPCircularBufferProduceBytes_success b src n ptr space 0 Hwf)
    as (Hsum & Hrange & _ & _ & Hall);
    try assumption; try (int32_bounds; lia).
  exists (produced n (after_copy b src n 0)). split; [exact Hall |].
  assert (Hcopied : copied_bytes src n 0 = src).
  { unfold copied_bytes, n. rewrite Z.sub_0_r, Nat2Z.id. simpl.
    rewrite drop_0. apply take_ge. lia. }
  assert (Hnew : add32 (fillCount b) n = fillCount b + n)
    by now apply wrap32_exact.
  assert (Hread : read_bytes (produced n (after_copy b src n 0))
                    (Addr (tail b + fillCount b)) n = Some src).
  { unfold read_bytes. destruct (Z.eqb_spec n 0) as [E | E].
    - f_equal. symmetry. apply length_zero_iff_nil. unfold n in E. lia.
    - simpl. unfold mapped.
      replace (0 <=? tail b + fillCount b) with true by (symmetry; apply Z.leb_le; lia).
      replace (tail b + fillCount b + n <=? 2 * length b) with true
        by (symmetry; apply Z.leb_le; lia).
      simpl. rewrite Hcopied. unfold n. rewrite Nat2Z.id.
      apply load_store_bytes; try lia.
      rewrite Z.add_0_r, Hq. apply Z.mod_mod. lia. }
  assert (Htailp : TPCircularBufferTail (produced n (after_copy b src n 0))
                   = (if fillCount b + n =? 0 then NULL else Addr (tail b),
                      fillCount b + n)).
  { unfold TPCircularBufferTail, atomic_load_explicit. simpl.
    replace (if atomic b then add32 (fillCount b) n else add32 (fillCount b) n)
      with (fillCount b + n) by (now destruct (atomic b)).
    destruct (Z.leb_spec (fillCount b + n) 0) as [Hz | Hz].
    - replace (fillCount b + n) with 0 by lia. reflexivity.
    - destruct (Z.eqb_spec (fillCount b + n) 0); [lia | reflexivity]. }
  rewrite Htailp. simpl.
  split; [reflexivity |]. split; [| split].
  - destruct (Z.eqb_spec (fillCount b + n) 0) as [E | E]; simpl; [| exact Hread].
    assert (n = 0) as Hn0 by lia. unfold read_bytes. rewrite Hn0. simpl.
    f_equal. symmetry. apply length_zero_iff_nil. unfold n in Hn0. lia.
  - intros Hempty. rewrite Hempty in Hread. rewrite Z.add_0_r in Hread.
    rewrite Hempty, Z.add_0_l.
    destruct (Z.eqb_spec n 0) as [E | E]; [| exact Hread].
    unfold read_bytes. rewrite E. simpl.
    f_equal. symmetry. apply length_zero_iff_nil. unfold n in E. lia.
  - rewrite TPCircularBufferConsume_eq. simpl.
    rewrite rem_traps_pos by lia.
    eexists. split; [reflexivity |]. simpl. split; [| reflexivity].
    rewrite Hnew. unfold sub32.
    rewrite wrap32_exact by (int32_bounds; lia). lia.
Qed.

Lemma write_then_read_witness :
  wf empty4096 /\ quiescent empty4096 /\
  exists b',
    TPCircularBufferProduceBytes [x61; x62; x63] 3 empty4096 = Returned true b' /\
    read_bytes b' (fst (TPCircularBufferTail b')) 3 = Some [x61; x62; x63].
Proof.
  split; [solve_wf |]. split; [by_eval |].
  destruct (write_then_read empty4096 [x61; x62; x63])
    as (b' & Hwrite & _ & _ & Hread & _);
    [solve_wf | by_eval | by_eval | by_eval |].
  exists b'. split; [exact Hwrite | apply Hread; reflexivity].
Defined.

(** C2 as stated fails on a buffer that already holds unread data: the
    first [N] bytes at the read pointer are the older ones. Here one byte
    [x61] is waiting, [x62] is written, and the byte read back is [x61]. *)
Lemma write_then_read_not_first :
  wf one_unread4096 /\ quiescent one_unread4096 /\
  1 <= snd (fst (TPCircularBufferHead one_unread4096)) /\
  exists b',
    TPCircularBufferProduceBytes [x62] 1 one_unread4096 = Returned true b' /\
    read_bytes b' (fst (TPCircularBufferTail b')) 1 = Some [x61] /\
    Some [x61] <> Some [x62].
Proof.
  split; [solve_wf |]. split; [by_eval |]. split; [by_eval |].
  eexists. split; [vm_compute; reflexivity |].
  split; [vm_compute; reflexivity | discriminate].
Qed.

(** * Further properties of the calls *)

Lemma wrap32_add_l (x y : Z) : wrap32 (wrap32 x + y) = wrap32 (x + y).
Proof.
  unfold wrap32.
  replace ((x + 2147483648) mod 4294967296 - 2147483648 + y + 2147483648)
    with ((x + 2147483648) mod 4294967296 + y) by lia.
  rewrite Z.add_mod_idemp_l by lia.
  f_equal. f_equal. lia.
Qed.

Lemma load_bytes_total (cap : Z) (mem : list byte) (n : nat) :
  0 < cap -> Z.of_nat (List.length mem) = cap ->
  forall off, exists l, load_bytes cap off n mem = Some l /\ List.length l = n.
Proof.
  intros Hcap Hmem. induction n as [| n IH]; intros off; simpl.
  - exists []. split; reflexivity.
  - destruct (lookup_lt_is_Some_2 mem (phys cap off) (phys_lt cap off mem Hcap Hmem))
      as [x Hx].
    destruct (IH (off + 1)) as (l & Hl & Hlen).
    exists (x :: l). rewrite Hx, Hl. split; [reflexivity | simpl; lia].
Qed.

Lemma load_bytes_ext (cap : Z) (mem mem' : list byte) (n : nat) :
  forall off,
    (forall k : nat, (k < n)%nat ->
                     mem !! phys cap (off + Z.of_nat k) = mem' !! phys cap (off + Z.of_nat k)) ->
    load_bytes cap off n mem = load_bytes cap off n mem'.
Proof.
  induction n as [| n IH]; intros off Hsame; simpl; [reflexivity |].
  pose proof (Hsame O ltac:(lia)) as H0. rewrite Z.add_0_r in H0.
  rewrite H0, (IH (off + 1)); [reflexivity |].
  intros k Hk. specialize (Hsame (S k) ltac:(lia)).
  replace (off + 1 + Z.of_nat k) with (off + Z.of_nat (S k)) by lia. exact Hsame.
Qed.

Lemma steady_head_range (b : TPCircularBuffer) :
  steady b -> 0 <= head b < length b.
Proof.
  intros (Hwf & _ & _ & _ & Hq). destruct Hwf as [Hcap _ _ _ _].
  rewrite Hq. apply Z.mod_pos_bound. lia.
Qed.

Lemma steady_space (b : TPCircularBuffer) :
  steady b ->
  TPCircularBufferHead b
    = (if length b - fillCount b =? 0 then NULL else Addr (head b),
       length b - fillCount b, 0).
Proof.
  intros (Hwf & _ & _ & Hfc & _).
  destruct (TPCircularBufferHead b) as [[ptr space] discard] eqn:Hhead.
  pose proof Hwf as [Hcap _ _ _ _].
  destruct (TPCircularBufferHead_cases b ptr space discard Hwf Hhead)
    as [(Hle & -> & -> & ->) | (Hgt & -> & -> & ->)].
  - replace (fillCount b) with 0 by lia. rewrite Z.sub_0_r.
    destruct (Z.eqb_spec (length b) 0); [lia | reflexivity].
  - reflexivity.
Qed.

Lemma steady_available (b : TPCircularBuffer) :
  steady b ->
  TPCircularBufferTail b
    = (if fillCount b =? 0 then NULL else Addr (tail b), fillCount b).
Proof.
  intros (_ & _ & _ & Hfc & _).
  unfold TPCircularBufferTail, atomic_load_explicit.
  replace (if atomic b then fillCount b else fillCount b) with (fillCount b)
    by now destruct (atomic b).
  destruct (Z.leb_spec (fillCount b) 0).
  - replace (fillCount b) with 0 by lia. reflexivity.
  - destruct (Z.eqb_spec (fillCount b) 0); [lia | reflexivity].
Qed.

(** A write that fits, on a steady state: where it lands and what state it
    leaves. *)
Lemma TPCircularBufferProduceBytes_written
    (b : TPCircularBuffer) (src : list byte) (len : Z) :
  steady b -> 0 <= len <= Z.of_nat (List.length src) ->
  len <= length b - fillCount b ->
  TPCircularBufferProduceBytes src len b = Returned true (written b src len) /\
  steady (written b src len).
Proof.
  intros Hsteady Hlen Hfit.
  pose proof (steady_head_range b Hsteady) as Hhead.
  pose proof (steady_space b Hsteady) as Hsp.
  destruct Hsteady as (Hwf & Hcap & Htail & Hfc & Hq).
  pose proof Hwf as [Hpos Htl Hhd Hfill Hmem].
  destruct (TPCircularBufferProduceBytes_success b src len _ _ _ Hwf
              ltac:(int32_bounds; lia) Hsp)
    as (_ & _ & _ & _ & Hall); try lia.
  assert (Hstate : produced len (after_copy b src len 0) = written b src len).
  { unfold produced, after_copy, written, copied_bytes, add32. simpl.
    rewrite (wrap32_exact (head b + len)) by (int32_bounds; lia).
    rewrite (wrap32_exact (fillCount b + len)) by (int32_bounds; lia).
    rewrite Z.rem_mod_nonneg by lia.
    now rewrite Z.add_0_r, Z.sub_0_r, drop_0. }
  rewrite Hstate in Hall. split; [exact Hall |].
  pose proof (Z.mod_pos_bound (head b + len) (length b) ltac:(lia)).
  repeat split; simpl; try (int32_bounds; lia).
  - rewrite store_bytes_length. exact Hmem.
  - rewrite Hq, Z.add_mod_idemp_l by lia. f_equal. lia.
Qed.

(** X1. On a well-formed state, for an amount that keeps [tail + amount]
    between 0 and [max_int] and [fillCount - amount] in the 32-bit range,
    [TPCircularBufferConsume] moves the read cursor to
    [(tail + amount) mod length], subtracts the amount from the fill count,
    leaves the other fields alone and returns: it checks nothing, so
    consuming more than is stored goes through and leaves the fill count
    negative. *)
Theorem TPCircularBufferConsume_updates (b : TPCircularBuffer) (amount : Z) :
  wf b ->
  0 <= tail b + amount <= max_int ->
  in_int32 (fillCount b - amount) ->
  TPCircularBufferConsume amount b =
    Returned tt {| buffer := buffer b; length := length b;
                   tail := (tail b + amount) mod length b;
                   head := head b;
                   fillCount := fillCount b - amount;
                   atomic := atomic b |}.
Proof.
  intros [Hcap _ _ _ _] Hsum Hfill.
  rewrite TPCircularBufferConsume_eq. unfold add32, sub32.
  rewrite (wrap32_exact (tail b + amount)) by (int32_bounds; lia).
  rewrite (wrap32_exact (fillCount b - amount)) by exact Hfill.
  rewrite rem_traps_pos by lia.
  rewrite Z.rem_mod_nonneg by lia.
  reflexivity.
Qed.

Lemma TPCircularBufferConsume_updates_witness :
  wf busy4096 /\
  TPCircularBufferConsume 1200 busy4096 =
    Returned tt (mkTPCircularBuffer (replicate 4096 x00) 4096 104 3100 (-1100) false).
Proof.
  split; [solve_wf |].
  apply (TPCircularBufferConsume_updates busy4096 1200); [solve_wf | by_eval | by_eval].
Defined.

(** X2. Consuming everything [TPCircularBufferTail] reports empties a
    steady buffer: the call returns, the fill count is zero, the read cursor
    has caught up with the write cursor, [TPCircularBufferTail] then reports
    nothing to read and [TPCircularBufferHead] the whole capacity at the
    write cursor with nothing to discard. *)
Theorem consume_all_empties (b : TPCircularBuffer) :
  steady b ->
  exists b',
    TPCircularBufferConsume (snd (TPCircularBufferTail b)) b = Returned tt b' /\
    fillCount b' = 0 /\ tail b' = head b /\ head b' = head b /\
    buffer b' = buffer b /\
    TPCircularBufferTail b' = (NULL, 0) /\
    TPCircularBufferHead b' = (Addr (head b), length b, 0) /\
    steady b'.
Proof.
  intros Hsteady.
  pose proof (steady_available b Hsteady) as Hav.
  destruct (steady_step b (Consume (fillCount b)) Hsteady) as (b' & Hrun & Hsteady').
  { simpl. destruct Hsteady as (_ & _ & _ & Hfc & _). lia. }
  { simpl. rewrite Hav. simpl. lia. }
  rewrite Hav. simpl. exists b'. simpl in Hrun. split; [exact Hrun |].
  destruct Hsteady as (Hwf & Hcap & Htail & Hfc & Hq).
  pose proof Hwf as [Hpos _ _ _ _].
  rewrite TPCircularBufferConsume_eq, rem_traps_pos in Hrun by lia.
  unfold add32, sub32 in Hrun.
  rewrite (wrap32_exact (tail b + fillCount b)) in Hrun by (int32_bounds; lia).
  rewrite Z.sub_diag, Z.rem_mod_nonneg in Hrun by lia.
  injection Hrun as <-.
  pose proof (steady_available _ Hsteady') as Hav'.
  pose proof (steady_space _ Hsteady') as Hsp'.
  simpl in Hav', Hsp'. rewrite Z.sub_0_r in Hsp'.
  destruct (Z.eqb_spec (length b) 0); [lia |].
  simpl. repeat split; try assumption; try (symmetry; assumption); apply Hsteady'.
Qed.

Lemma consume_all_empties_witness :
  exists b',
    TPCircularBufferConsume 100 busy4096 = Returned tt b' /\
    TPCircularBufferTail b' = (NULL, 0).
Proof.
  destruct (consume_all_empties busy4096) as (b' & Hrun & _ & _ & _ & _ & Hav & _).
  - split; [solve_wf |]. by_eval.
  - exists b'. split; [exact Hrun | exact Hav].
Defined.

(** * Each role writes its own cursor *)

Lemma run_op_frame (o : op) (b b' : TPCircularBuffer) :
  final_state (run_op o b) = Some b' ->
  buffer b' = buffer b /\ length b' = length b /\ atomic b' = atomic b /\
  (is_consume o = true -> head b' = head b) /\
  (is_produce o = true -> tail b' = tail b).
Proof.
  destruct o as [amount | amount]; unfold run_op, bind.
  - rewrite TPCircularBufferConsume_eq.
    destruct (rem_traps _ _); simpl; [discriminate |].
    intros [= <-]. simpl. repeat split. discriminate.
  - rewrite TPCircularBufferProduce_eq.
    destruct (rem_traps _ _); simpl; [discriminate |].
    destruct (_ <=? _); simpl; intros [= <-]; simpl; repeat split; discriminate.
Qed.

Lemma run_op_legacy_frame (o : op) (b b' : TPCircularBuffer) :
  final_state (run_op_legacy o b) = Some b' ->
  buffer b' = buffer b /\ length b' = length b /\ atomic b' = atomic b /\
  (is_consume o = true -> head b' = head b) /\
  (is_produce o = true -> tail b' = tail b).
Proof.
  destruct o as [amount | amount]; unfold run_op_legacy.
  - rewrite TPCircularBufferConsumeNoBarrier_eq.
    destruct (rem_traps _ _); simpl; [discriminate |].
    intros [= <-]. simpl. repeat split. discriminate.
  - rewrite TPCircularBufferProduceNoBarrier_eq.
    destruct (rem_traps _ _); simpl; [discriminate |].
    destruct (_ <=? _); simpl; intros [= <-]; simpl; repeat split; discriminate.
Qed.

Lemma run_frame (step : op -> M unit) (keep : op -> bool)
    (field : TPCircularBuffer -> Z) :
  (forall o b b', final_state (step o b) = Some b' ->
                  keep o = true -> field b' = field b) ->
  forall ops b b',
    forallb keep ops = true ->
    final_state (run step ops b) = Some b' ->
    field b' = field b.
Proof.
  intros Hstep ops. induction ops as [| o ops IH]; intros b b' Hall Hrun.
  - simpl in Hrun. injection Hrun as <-. reflexivity.
  - simpl in Hall. apply andb_prop in Hall as [Ho Hall].
    simpl in Hrun. unfold bind in Hrun.
    destruct (step o b) as [[] c | c |] eqn:E; simpl in Hrun.
    + rewrite (IH c b' Hall Hrun). apply (Hstep o b c); [now rewrite E | exact Ho].
    + injection Hrun as <-. apply (Hstep o b c); [now rewrite E | exact Ho].
    + discriminate.
Qed.

(** X3. A run of consumer calls only, in either mode or through the
    deprecated variant, never moves the write cursor: wherever the run
    stops, [head] is what it was. *)
Theorem consumer_never_moves_head (ops : list op) (b b' : TPCircularBuffer) :
  forallb is_consume ops = true ->
  final_state (run run_op ops b) = Some b' \/
  final_state (run run_op_legacy ops b) = Some b' ->
  head b' = head b.
Proof.
  intros Hall [Hrun | Hrun].
  - apply (run_frame run_op is_consume head) with (ops := ops); try assumption.
    intros o c c' Hc Ho. now apply (run_op_frame o c c' Hc).
  - apply (run_frame run_op_legacy is_consume head) with (ops := ops); try assumption.
    intros o c c' Hc Ho. now apply (run_op_legacy_frame o c c' Hc).
Qed.

Lemma consumer_never_moves_head_witness :
  exists b',
    final_state (run run_op [Consume 40; Consume 60] busy4096) = Some b' /\
    head b' = head busy4096.
Proof.
  eexists. split; [vm_compute; reflexivity |].
  apply (consumer_never_moves_head [Consume 40; Consume 60]);
    [reflexivity | left; vm_compute; reflexivity].
Defined.

(** X4. A run of producer calls only, in either mode or through the
    deprecated variant, never moves the read cursor: wherever the run stops,
    also at a failed assertion, [tail] is what it was. *)
Theorem producer_never_moves_tail (ops : list op) (b b' : TPCircularBuffer) :
  forallb is_produce ops = true ->
  final_state (run run_op ops b) = Some b' \/
  final_state (run run_op_legacy ops b) = Some b' ->
  tail b' = tail b.
Proof.
  intros Hall [Hrun | Hrun].
  - apply (run_frame run_op is_produce tail) with (ops := ops); try assumption.
    intros o c c' Hc Ho. now apply (run_op_frame o c c' Hc).
  - apply (run_frame run_op_legacy is_produce tail) with (ops := ops); try assumption.
    intros o c c' Hc Ho. now apply (run_op_legacy_frame o c c' Hc).
Qed.

Lemma producer_never_moves_tail_witness :
  exists b',
    final_state (run run_op [Produce 1000; Produce 4000] busy4096) = Some b' /\
    tail b' = tail busy4096.
Proof.
  eexists. split; [vm_compute; reflexivity |].
  apply (producer_never_moves_tail [Produce 1000; Produce 4000]);
    [reflexivity | left; vm_compute; reflexivity].
Defined.

(** * The bounds-checked write on a steady buffer *)

Lemma phys_mod_l (cap x k : Z) : 0 < cap -> phys cap (x mod cap + k) = phys cap (x + k).
Proof. intros Hcap. unfold phys. now rewrite Z.add_mod_idemp_l by lia. Qed.

Lemma quiescent_phys (b : TPCircularBuffer) (k : Z) :
  0 < length b -> quiescent b ->
  phys (length b) (head b + k) = phys (length b) (tail b + fillCount b + k).
Proof. intros Hpos [_ Hq]. rewrite Hq. now apply phys_mod_l. Qed.

Lemma consumed_steady (b : TPCircularBuffer) (amount : Z) :
  steady b -> 0 <= amount <= fillCount b ->
  TPCircularBufferConsume amount b = Returned tt (consumed b amount) /\
  steady (consumed b amount).
Proof.
  intros (Hwf & Hcap & Htail & Hfc & Hq) Ha.
  pose proof Hwf as [Hpos Htl Hhd Hfill Hmem].
  split.
  - rewrite TPCircularBufferConsume_eq. unfold add32, sub32, consumed.
    rewrite (wrap32_exact (tail b + amount)) by (int32_bounds; lia).
    rewrite (wrap32_exact (fillCount b - amount)) by (int32_bounds; lia).
    now rewrite rem_traps_pos, Z.rem_mod_nonneg by lia.
  - pose proof (Z.mod_pos_bound (tail b + amount) (length b) ltac:(lia)).
    repeat split; simpl; try (int32_bounds; lia).
    rewrite Z.add_mod_idemp_l by lia. rewrite Hq. f_equal. lia.
Qed.

Lemma published_steady (b : TPCircularBuffer) (amount : Z) :
  steady b -> 0 <= amount <= length b - fillCount b ->
  TPCircularBufferProduce amount b = Returned (fillCount b) (published b amount) /\
  steady (published b amount).
Proof.
  intros Hsteady Ha.
  pose proof (steady_head_range b Hsteady) as Hhead.
  destruct Hsteady as (Hwf & Hcap & Htail & Hfc & Hq).
  pose proof Hwf as [Hpos Htl Hhd Hfill Hmem].
  split.
  - rewrite TPCircularBufferProduce_eq. unfold produced, add32, published.
    rewrite (wrap32_exact (head b + amount)) by (int32_bounds; lia).
    rewrite (wrap32_exact (fillCount b + amount)) by (int32_bounds; lia).
    rewrite rem_traps_pos, Z.rem_mod_nonneg by lia.
    destruct (Z.leb_spec (fillCount b + amount) (length b)); [reflexivity | lia].
  - pose proof (Z.mod_pos_bound (head b + amount) (length b) ltac:(lia)).
    repeat split; simpl; try (int32_bounds; lia).
    rewrite Hq, Z.add_mod_idemp_l by lia. f_equal. lia.
Qed.



(** X6. A write that succeeds on a steady buffer leaves the unread data as
    it was: the span [TPCircularBufferTail] reported before the write reads
    the same afterwards. *)
Theorem TPCircularBufferProduceBytes_keeps_unread
    (b : TPCircularBuffer) (src : list byte) (len : Z) :
  steady b -> 0 <= len <= Z.of_nat (List.length src) ->
  len <= length b - fillCount b ->
  TPCircularBufferProduceBytes src len b = Returned true (written b src len) /\
  read_bytes (written b src len)
    (fst (TPCircularBufferTail b)) (snd (TPCircularBufferTail b))
  = read_bytes b (fst (TPCircularBufferTail b)) (snd (TPCircularBufferTail b)).
Proof.
  intros Hsteady Hlen Hfit.
  split; [now apply TPCircularBufferProduceBytes_written |].
  rewrite (steady_available b Hsteady). simpl.
  destruct Hsteady as (Hwf & Hcap & Htail & Hfc & Hq).
  pose proof Hwf as [Hpos _ _ _ Hmem].
  unfold read_bytes. destruct (Z.eqb_spec (fillCount b) 0) as [E | E]; [reflexivity |].
  simpl. destruct (mapped (length b) (tail b) (fillCount b)); [| reflexivity].
  apply load_bytes_ext. intros k Hk.
  apply store_bytes_other. intros j Hj.
  rewrite length_take in Hj.
  rewrite Hq, phys_mod_l by lia.
  replace (tail b + fillCount b + j)
    with (tail b + Z.of_nat k + (fillCount b + j - Z.of_nat k)) by lia.
  apply phys_distinct; lia.
Qed.

Lemma TPCircularBufferProduceBytes_keeps_unread_witness :
  read_bytes (written busy4096 [x41; x42] 2) (Addr 3000) 100
  = read_bytes busy4096 (Addr 3000) 100.
Proof.
  apply (TPCircularBufferProduceBytes_keeps_unread busy4096 [x41; x42] 2).
  - split; [solve_wf |]. by_eval.
  - by_eval.
  - by_eval.
Defined.

(** * First in, first out *)

Lemma take_all_bytes (src : list byte) :
  take (Z.to_nat (Z.of_nat (List.length src))) src = src.
Proof. rewrite Nat2Z.id. apply take_ge. lia. Qed.

(** X7. Two writes in a row on a steady buffer, both fitting the free
    space, are read back in the order written: after the bytes that were
    already unread, the readable span holds the first source followed by the
    second. *)
Theorem two_writes_read_in_order (b : TPCircularBuffer) (src1 src2 : list byte) :
  steady b ->
  Z.of_nat (List.length src1) + Z.of_nat (List.length src2)
    <= length b - fillCount b ->
  let n1 := Z.of_nat (List.length src1) in
  let n2 := Z.of_nat (List.length src2) in
  let b1 := written b src1 n1 in
  let b2 := written b1 src2 n2 in
  TPCircularBufferProduceBytes src1 n1 b = Returned true b1 /\
  TPCircularBufferProduceBytes src2 n2 b1 = Returned true b2 /\
  snd (TPCircularBufferTail b2) = fillCount b + n1 + n2 /\
  read_bytes b2 (Addr (tail b + fillCount b)) (n1 + n2) = Some (src1 ++ src2).
Proof.
  intros Hsteady Hfit n1 n2 b1 b2.
  destruct (TPCircularBufferProduceBytes_written b src1 n1 Hsteady)
    as [Hw1 Hs1]; try (unfold n1; lia).
  destruct (TPCircularBufferProduceBytes_written b1 src2 n2 Hs1)
    as [Hw2 Hs2]; try (unfold n2; simpl; lia).
  split; [exact Hw1 |]. split; [exact Hw2 |].
  split; [rewrite (steady_available b2 Hs2); reflexivity |].
  destruct Hsteady as (Hwf & Hcap & Htail & Hfc & Hq).
  pose proof Hwf as [Hpos _ _ _ Hmem].
  unfold read_bytes.
  destruct (Z.eqb_spec (n1 + n2) 0) as [E | E].
  { assert (src1 = []) as -> by (apply length_zero_iff_nil; unfold n1, n2 in E; lia).
    assert (src2 = []) as -> by (apply length_zero_iff_nil; unfold n1, n2 in E; lia).
    reflexivity. }
  unfold mapped.
  replace (0 <=? tail b + fillCount b) with true by (symmetry; apply Z.leb_le; lia).
  replace (tail b + fillCount b + (n1 + n2) <=? 2 * length b2) with true
    by (symmetry; apply Z.leb_le; simpl; unfold n1, n2; lia).
  simpl.
  replace (Z.to_nat (n1 + n2)) with (List.length (src1 ++ src2))
    by (rewrite length_app; unfold n1, n2; lia).
  unfold n1, n2. rewrite !take_all_bytes.
  apply load_bytes_lookup. intros k Hk. rewrite length_app in Hk.
  destruct (Nat.lt_ge_cases k (List.length src1)) as [Hlo | Hhi].
  - rewrite store_bytes_other.
    + rewrite <- (quiescent_phys b (Z.of_nat k)) by (try split; assumption || lia).
      rewrite store_bytes_lookup by (try assumption; lia).
      symmetry. now apply lookup_app_l.
    + intros j Hj. rewrite phys_mod_l by lia.
      replace (head b + Z.of_nat (List.length src1) + j)
        with (head b + (Z.of_nat (List.length src1) + j)) by lia.
      rewrite quiescent_phys by (try split; assumption || lia).
      replace (tail b + fillCount b + (Z.of_nat (List.length src1) + j))
        with (tail b + fillCount b + Z.of_nat k
              + (Z.of_nat (List.length src1) + j - Z.of_nat k)) by lia.
      apply phys_distinct; lia.
  - replace (phys (length b) (tail b + fillCount b + Z.of_nat k))
      with (phys (length b)
              ((head b + Z.of_nat (List.length src1)) mod length b
               + Z.of_nat (k - List.length src1))).
    + rewrite store_bytes_lookup; try lia.
      * symmetry. now apply lookup_app_r.
      * rewrite store_bytes_length. exact Hmem.
    + rewrite phys_mod_l by lia.
      replace (head b + Z.of_nat (List.length src1) + Z.of_nat (k - List.length src1))
        with (head b + Z.of_nat k) by lia.
      apply quiescent_phys; (try split; assumption || lia).
Qed.

Lemma two_writes_read_in_order_witness :
  read_bytes (written (written busy4096 [x41; x42] 2) [x43] 1) (Addr 3100) 3
  = Some [x41; x42; x43].
Proof.
  apply (two_writes_read_in_order busy4096 [x41; x42] [x43]).
  - split; [solve_wf |]. by_eval.
  - by_eval.
Defined.

(** X8. After a write of [src] on a steady buffer, consuming the bytes that
    were already unread together with the first [k] bytes written leaves
    exactly the rest of [src] readable: [TPCircularBufferTail] reports
    [length src - k] bytes and they are [src] without its first [k]. *)
Theorem consumed_prefix_leaves_suffix
    (b : TPCircularBuffer) (src : list byte) (k : Z) :
  steady b ->
  Z.of_nat (List.length src) <= length b - fillCount b ->
  0 <= k <= Z.of_nat (List.length src) ->
  let n := Z.of_nat (List.length src) in
  let b1 := written b src n in
  let b2 := consumed b1 (fillCount b + k) in
  TPCircularBufferProduceBytes src n b = Returned true b1 /\
  TPCircularBufferConsume (fillCount b + k) b1 = Returned tt b2 /\
  snd (TPCircularBufferTail b2) = n - k /\
  read_bytes b2 (fst (TPCircularBufferTail b2)) (n - k) = Some (drop (Z.to_nat k) src).
Proof.
  intros Hsteady Hfit Hk n b1 b2.
  destruct (TPCircularBufferProduceBytes_written b src n Hsteady)
    as [Hw1 Hs1]; try (unfold n; lia).
  destruct (consumed_steady b1 (fillCount b + k) Hs1) as [Hc Hs2].
  { destruct Hsteady as (_ & _ & _ & Hfc & _). simpl. lia. }
  split; [exact Hw1 |]. split; [exact Hc |].
  rewrite (steady_available b2 Hs2).
  assert (Hfill2 : fillCount b2 = n - k) by (simpl; lia).
  rewrite Hfill2. split; [reflexivity |]. simpl fst.
  destruct Hsteady as (Hwf & Hcap & Htail & Hfc & Hq).
  pose proof Hwf as [Hpos _ _ _ Hmem].
  unfold read_bytes.
  destruct (Z.eqb_spec (n - k) 0) as [E | E].
  { f_equal. symmetry. apply drop_ge. unfold n in E. lia. }
  pose proof (Z.mod_pos_bound (tail b + (fillCount b + k)) (length b) ltac:(lia)) as Hrange.
  unfold mapped. simpl.
  replace (0 <=? (tail b + (fillCount b + k)) mod length b) with true
    by (symmetry; apply Z.leb_le; lia).
  replace ((tail b + (fillCount b + k)) mod length b + (n - k) <=? 2 * length b)
    with true by (symmetry; apply Z.leb_le; unfold n in *; lia).
  simpl.
  replace (Z.to_nat (n - k)) with (List.length (drop (Z.to_nat k) src))
    by (rewrite length_drop; unfold n; lia).
  unfold n. rewrite take_all_bytes.
  apply load_bytes_lookup. intros j Hj. rewrite length_drop in Hj.
  rewrite phys_mod_l by lia.
  replace (tail b + (fillCount b + k) + Z.of_nat j)
    with (tail b + fillCount b + Z.of_nat (Z.to_nat k + j)) by lia.
  rewrite <- quiescent_phys by (try split; assumption || lia).
  rewrite store_bytes_lookup by (try assumption; lia).
  symmetry. apply lookup_drop.
Qed.

Lemma consumed_prefix_leaves_suffix_witness :
  read_bytes (consumed (written busy4096 [x41; x42; x43] 3) 101) (Addr 3101) 2
  = Some [x42; x43].
Proof.
  apply (consumed_prefix_leaves_suffix busy4096 [x41; x42; x43] 1).
  - split; [solve_wf |]. by_eval.
  - by_eval.
  - by_eval.
Defined.

(** * What the two roles can reach *)

Lemma quiescent_available (b : TPCircularBuffer) :
  0 <= fillCount b ->
  TPCircularBufferTail b
    = (if fillCount b =? 0 then NULL else Addr (tail b), fillCount b).
Proof.
  intros Hfc. unfold TPCircularBufferTail, atomic_load_explicit.
  replace (if atomic b then fillCount b else fillCount b) with (fillCount b)
    by now destruct (atomic b).
  destruct (Z.leb_spec (fillCount b) 0).
  - replace (fillCount b) with 0 by lia. reflexivity.
  - destruct (Z.eqb_spec (fillCount b) 0); [lia | reflexivity].
Qed.

(** X9. On a well-formed quiescent buffer the span offered to the reader
    and the span offered to the writer never name the same byte of the
    region: no offset below the count [TPCircularBufferTail] reports, taken
    from its pointer, lands on the storage of an offset below the space
    [TPCircularBufferHead] reports, taken from its pointer. *)
Theorem readable_writable_disjoint
    (b : TPCircularBuffer) (p q n m d i k : Z) :
  wf b -> quiescent b ->
  TPCircularBufferTail b = (Addr p, n) ->
  TPCircularBufferHead b = (Addr q, m, d) ->
  0 <= i < n -> 0 <= k < m ->
  phys (length b) (p + i) <> phys (length b) (q + k).
Proof.
  intros Hwf Hq Htail Hhead Hi Hk.
  pose proof Hwf as [Hpos _ _ _ _].
  pose proof Hq as [Hfc _].
  rewrite quiescent_available in Htail by lia.
  destruct (Z.eqb_spec (fillCount b) 0) as [E | E]; [discriminate |].
  injection Htail as <- <-.
  destruct (TPCircularBufferHead_cases b _ _ _ Hwf Hhead)
    as [(Hle & _) | (_ & -> & _ & Hptr)]; [lia |].
  destruct (Z.eqb_spec (length b - fillCount b) 0); [discriminate |].
  injection Hptr as ->.
  rewrite quiescent_phys by (assumption || lia).
  replace (tail b + fillCount b + k)
    with (tail b + i + (fillCount b + k - i)) by lia.
  apply not_eq_sym, phys_distinct; lia.
Qed.

Lemma readable_writable_disjoint_witness :
  phys (length busy4096) (3000 + 99) <> phys (length busy4096) (3100 + 3995).
Proof.
  apply (readable_writable_disjoint busy4096 3000 3100 100 3996 0 99 3995);
    first [ solve_wf | by_eval ].
Defined.

(** X10. On a well-formed quiescent buffer whose read cursor is an offset
    into the buffer, both reported spans lie inside the mirrored region: the
    whole span [TPCircularBufferTail] reports can be read, and the whole
    span [TPCircularBufferHead] reports starts inside the buffer and is
    mapped, although either may run past the end of the first copy. *)
Theorem reported_spans_are_mapped (b : TPCircularBuffer) :
  wf b -> 0 <= tail b < length b -> quiescent b ->
  (exists bs,
      read_bytes b (fst (TPCircularBufferTail b)) (snd (TPCircularBufferTail b))
        = Some bs /\
      Z.of_nat (List.length bs) = snd (TPCircularBufferTail b)) /\
  (forall q m d,
      TPCircularBufferHead b = (Addr q, m, d) ->
      0 <= q < length b /\ mapped (length b) q m = true).
Proof.
  intros Hwf Htail Hq.
  pose proof Hwf as [Hpos _ _ _ Hmem].
  pose proof Hq as [Hfc Hhead].
  split.
  - rewrite quiescent_available by lia. simpl. unfold read_bytes.
    destruct (Z.eqb_spec (fillCount b) 0) as [E | E].
    + exists []. rewrite E. split; reflexivity.
    + simpl. unfold mapped.
      replace (0 <=? tail b) with true by (symmetry; apply Z.leb_le; lia).
      replace (tail b + fillCount b <=? 2 * length b) with true
        by (symmetry; apply Z.leb_le; lia).
      simpl.
      destruct (load_bytes_total (length b) (buffer b) (Z.to_nat (fillCount b))
                  ltac:(lia) Hmem (tail b)) as (bs & Hbs & Hlen).
      exists bs. split; [exact Hbs | lia].
  - intros q m d Hh.
    assert (Hrange : 0 <= head b < length b).
    { rewrite Hhead. apply Z.mod_pos_bound. lia. }
    destruct (TPCircularBufferHead_cases b _ _ _ Hwf Hh)
      as [(_ & -> & _ & Hptr) | (_ & -> & _ & Hptr)].
    + injection Hptr as ->. split; [exact Hrange |].
      unfold mapped. apply andb_true_intro. split; apply Z.leb_le; lia.
    + destruct (Z.eqb_spec (length b - fillCount b) 0); [discriminate |].
      injection Hptr as ->. split; [exact Hrange |].
      unfold mapped. apply andb_true_intro. split; apply Z.leb_le; lia.
Qed.

Lemma reported_spans_are_mapped_witness :
  mapped (length busy4096) 3100 3996 = true.
Proof.
  destruct (reported_spans_are_mapped busy4096) as [_ Hw];
    [solve_wf | by_eval | by_eval |].
  apply (Hw 3100 3996 0). reflexivity.
Defined.

(** X11. On a steady buffer a consume and a produce that are each within
    bounds commute: run in either order they both return and leave the same
    buffer, which is steady again. The consumer moves only the read cursor,
    the producer only the write cursor, and the two updates of the fill
    count add up. *)
Theorem consume_produce_commute (b : TPCircularBuffer) (a p : Z) :
  steady b -> 0 <= a <= fillCount b -> 0 <= p <= length b - fillCount b ->
  run run_op [Consume a; Produce p] b = Returned tt (published (consumed b a) p) /\
  run run_op [Produce p; Consume a] b = Returned tt (published (consumed b a) p) /\
  steady (published (consumed b a) p).
Proof.
  intros Hsteady Ha Hp.
  destruct (consumed_steady b a Hsteady Ha) as [Hc Hsc].
  destruct (published_steady (consumed b a) p Hsc) as [Hcp Hscp]; [simpl; lia |].
  destruct (published_steady b p Hsteady Hp) as [Hpb Hsp].
  destruct (consumed_steady (published b p) a Hsp) as [Hpc _]; [simpl; lia |].
  assert (Hsame : consumed (published b p) a = published (consumed b a) p).
  { unfold consumed, published. simpl. f_equal. lia. }
  split; [| split; [| exact Hscp]].
  - simpl. unfold bind. rewrite Hc, Hcp. reflexivity.
  - simpl. unfold bind. rewrite Hpb. unfold ret. cbv beta iota.
    rewrite Hpc, Hsame. reflexivity.
Qed.

Lemma consume_produce_commute_witness :
  run run_op [Consume 40; Produce 500] busy4096
  = run run_op [Produce 500; Consume 40] busy4096.
Proof.
  destruct (consume_produce_commute busy4096 40 500) as (H1 & H2 & _).
  - split; [solve_wf |]. by_eval.
  - by_eval.
  - by_eval.
  - rewrite H1, H2. reflexivity.
Defined.

(** * A negative fill count and the discard count *)

(** X12. Consuming [d > 0] bytes more than a steady buffer holds leaves the
    fill count at [- d], and [TPCircularBufferHead] then reports the whole
    capacity with [d] bytes to discard. The next bulk write of
    [len >= d] bytes makes up for it: it skips the first [d] bytes of the
    source, publishes [len], and leaves a quiescent buffer whose readable
    span is exactly the [len - d] source bytes after the first [d]. *)
Theorem overconsumption_is_compensated
    (b : TPCircularBuffer) (src : list byte) (d len : Z) :
  steady b ->
  0 < d -> fillCount b + d <= length b ->
  d <= len <= length b -> len <= Z.of_nat (List.length src) ->
  let b1 := consumed b (fillCount b + d) in
  let b2 := produced len (after_copy b1 src len d) in
  TPCircularBufferConsume (fillCount b + d) b = Returned tt b1 /\
  fillCount b1 = - d /\
  TPCircularBufferHead b1 = (Addr (head b), length b, d) /\
  TPCircularBufferProduceBytes src len b1 = Returned true b2 /\
  fillCount b2 = len - d /\
  quiescent b2 /\
  read_bytes b2 (fst (TPCircularBufferTail b2)) (snd (TPCircularBufferTail b2))
    = Some (copied_bytes src len d).
Proof.
  intros Hsteady Hd Hover Hlen Hsrc b1 b2.
  pose proof (steady_head_range b Hsteady) as Hhead.
  destruct Hsteady as (Hwf & Hcap & Htail & Hfc & Hq).
  pose proof Hwf as [Hpos Htl Hhd Hfill Hmem].
  pose proof (Z.mod_pos_bound (tail b + (fillCount b + d)) (length b) ltac:(lia)) as Ht1.
  assert (Hc : TPCircularBufferConsume (fillCount b + d) b = Returned tt b1).
  { rewrite TPCircularBufferConsume_eq. unfold add32, sub32, b1, consumed.
    rewrite (wrap32_exact (tail b + (fillCount b + d))) by (int32_bounds; lia).
    rewrite (wrap32_exact (fillCount b - (fillCount b + d))) by (int32_bounds; lia).
    now rewrite rem_traps_pos, Z.rem_mod_nonneg by lia. }
  assert (Hf1 : fillCount b1 = - d) by (simpl; lia).
  assert (Hwf1 : wf b1).
  { constructor; simpl; try assumption; int32_bounds; lia. }
  assert (Hh1 : TPCircularBufferHead b1 = (Addr (head b), length b, d)).
  { destruct (TPCircularBufferHead b1) as [[ptr space] discard] eqn:E.
    destruct (TPCircularBufferHead_cases b1 ptr space discard Hwf1 E)
      as [(_ & -> & -> & ->) | (Hgt & _)]; [| lia].
    rewrite Hf1, neg32_exact by (int32_bounds; lia).
    simpl. f_equal. lia. }
  destruct (TPCircularBufferProduceBytes_success b1 src len _ _ _ Hwf1
              ltac:(int32_bounds; lia) Hh1)
    as (_ & _ & _ & _ & Hall); try (simpl; lia).
  assert (Hf2 : fillCount b2 = len - d).
  { simpl. unfold add32. rewrite wrap32_exact by (int32_bounds; lia). lia. }
  assert (Hq2 : quiescent b2).
  { split; [rewrite Hf2; simpl; lia |].
    rewrite Hf2. simpl. unfold add32.
    rewrite (wrap32_exact (head b + len)) by (int32_bounds; lia).
    rewrite Z.rem_mod_nonneg, Z.add_mod_idemp_l by lia.
    rewrite Hq, Z.add_mod_idemp_l by lia. f_equal. lia. }
  split; [exact Hc |]. split; [exact Hf1 |]. split; [exact Hh1 |].
  split; [exact Hall |]. split; [exact Hf2 |]. split; [exact Hq2 |].
  rewrite quiescent_available by (rewrite Hf2; lia).
  rewrite Hf2. simpl fst. simpl snd.
  pose proof (copied_bytes_length src len d ltac:(lia) Hsrc) as Hclen.
  unfold read_bytes.
  destruct (Z.eqb_spec (len - d) 0) as [E | E].
  { f_equal. symmetry. apply length_zero_iff_nil. lia. }
  unfold mapped. simpl.
  replace (0 <=? (tail b + (fillCount b + d)) mod length b) with true
    by (symmetry; apply Z.leb_le; lia).
  replace ((tail b + (fillCount b + d)) mod length b + (len - d) <=? 2 * length b)
    with true by (symmetry; apply Z.leb_le; lia).
  simpl. rewrite <- Hclen.
  apply load_bytes_lookup. intros j Hj.
  rewrite phys_mod_l by lia.
  replace (tail b + (fillCount b + d) + Z.of_nat j)
    with (tail b + fillCount b + (d + Z.of_nat j)) by lia.
  rewrite <- quiescent_phys by (try split; assumption || lia).
  replace (head b + (d + Z.of_nat j)) with (head b + d + Z.of_nat j) by lia.
  apply store_bytes_lookup; try assumption; lia.
Qed.

Lemma overconsumption_is_compensated_witness :
  exists b2,
    TPCircularBufferProduceBytes [x41; x42; x43] 3 (consumed busy4096 102)
      = Returned true b2 /\
    read_bytes b2 (fst (TPCircularBufferTail b2)) (snd (TPCircularBufferTail b2))
      = Some [x43].
Proof.
  destruct (overconsumption_is_compensated busy4096 [x41; x42; x43] 2 3)
    as (_ & _ & _ & Hw & _ & _ & Hr).
  - split; [solve_wf |]. by_eval.
  - by_eval.
  - by_eval.
  - by_eval.
  - by_eval.
  - eexists. split; [exact Hw | exact Hr].
Defined.

(** X13. With the fill count negative, a bulk write shorter than the
    discard count gets past the space check, which compares the space with
    the negative difference [len - discard], and calls [memcpy] with that
    difference converted to [size_t]: [len + fillCount + 2^64] bytes, more
    than the whole mapped region. The call is outside the contract of
    [memcpy], so its behaviour is undefined. *)
Theorem short_write_after_overconsumption_undefined
    (b : TPCircularBuffer) (src : list byte) (len : Z) :
  wf b -> min_int < fillCount b < 0 -> 0 <= len < - fillCount b ->
  TPCircularBufferHead b = (Addr (head b), length b, - fillCount b) /\
  (length b <? sub32 len (- fillCount b)) = false /\
  to_size_t (sub32 len (- fillCount b))
    = len + fillCount b + 18446744073709551616 /\
  2 * length b < to_size_t (sub32 len (- fillCount b)) /\
  in_bounds b (ptr_add (Addr (head b)) (- fillCount b)) src (- fillCount b)
    (to_size_t (sub32 len (- fillCount b))) = false /\
  TPCircularBufferProduceBytes src len b = Undefined.
Proof.
  intros Hwf Hfc Hlen.
  pose proof Hwf as [Hpos _ Hhd Hfill _].
  assert (Hhead : TPCircularBufferHead b = (Addr (head b), length b, - fillCount b)).
  { destruct (TPCircularBufferHead b) as [[ptr space] discard] eqn:E.
    destruct (TPCircularBufferHead_cases b ptr space discard Hwf E)
      as [(_ & -> & -> & ->) | (Hgt & _)]; [| lia].
    now rewrite neg32_exact by (int32_bounds; lia). }
  assert (Hsub : sub32 len (- fillCount b) = len + fillCount b).
  { unfold sub32. rewrite wrap32_exact by (int32_bounds; lia). lia. }
  assert (Hsize : to_size_t (len + fillCount b)
                  = len + fillCount b + 18446744073709551616).
  { unfold to_size_t.
    rewrite <- (Z_mod_plus_full (len + fillCount b) 1 18446744073709551616).
    apply Z.mod_small. int32_bounds. lia. }
  assert (Hcheck : (length b <? len + fillCount b) = false)
    by (apply Z.ltb_ge; lia).
  assert (Hout : in_bounds b (ptr_add (Addr (head b)) (- fillCount b)) src
                   (- fillCount b) (len + fillCount b + 18446744073709551616)
                 = false).
  { unfold in_bounds, ptr_add, mapped.
    replace (head b + - fillCount b + (len + fillCount b + 18446744073709551616)
             <=? 2 * length b) with false
      by (symmetry; apply Z.leb_gt; int32_bounds; lia).
    now rewrite andb_false_r. }
  rewrite Hsub, Hsize, Hcheck.
  split; [exact Hhead |]. split; [reflexivity |]. split; [reflexivity |].
  split; [int32_bounds; lia |]. split; [exact Hout |].
  unfold TPCircularBufferProduceBytes, bind, gets.
  rewrite Hhead, Hsub, Hcheck, Hsize. unfold memcpy.
  destruct (Z.eqb_spec (len + fillCount b + 18446744073709551616) 0);
    [int32_bounds; lia |].
  unfold bind, get. unfold ptr_add in *. cbv beta iota. now rewrite Hout.
Qed.

Lemma short_write_after_overconsumption_undefined_witness :
  to_size_t (sub32 1 (- fillCount raced4096)) = 18446744073709551615 /\
  TPCircularBufferProduceBytes [x61] 1 raced4096 = Undefined.
Proof.
  destruct (short_write_after_overconsumption_undefined raced4096 [x61] 1)
    as (_ & _ & Hsize & _ & _ & Hrun); [solve_wf | by_eval | by_eval |].
  split; [exact Hsize | exact Hrun].
Defined.
